(** * Flowers for Algorithm: the rat's drive tracker and its route search

    A shallow embedding of [flowers.cpp].  C++ [int] values are modelled in
    [Z]; every value the program computes from drives inside their declared
    bounds and from graph weights below the sentinel stays far inside the
    range of [int], so no wrap-around is written out; a statement that
    depends on the arithmetic carries the bounds that keep it there
    ([in_bounds], [valid_graph], [bounded_weights]).  C++ [/] and [%] on
    [int] truncate toward zero and are modelled by [Z.quot] and [Z.rem].
    [char] values are [ascii].  Console output does not influence any
    computed value and is left out, as is the [name] argument that only
    feeds it.  The file [graphWeights] that the program reads is not among
    the sources: the statements about the search quantify over the graph. *)

From Stdlib Require Import ZArith List Ascii String Bool Lia Permutation.
Import ListNotations.

Local Open Scope char_scope.
Local Open Scope Z_scope.

(** ** Constants *)

Definition FUN_MAX : Z := 35.
Definition HEALTH_MAX : Z := 60.
Definition HUNGER_MAX : Z := 30.
Definition SLEEP_MAX : Z := 40.
Definition VERTEX_COUNT : nat := 18.
Definition INFINITY_APPROX : Z := 42.

(** ** Data *)

(** [struct ratState]; the field [fun] is spelled [fun_] because [fun] is
    reserved. *)
Record ratState : Set := mkRat {
  fun_ : Z;
  health : Z;
  hunger : Z;
  sleep : Z
}.

(** [struct edgeWeight]. *)
Record edgeWeight : Set := mkEdge {
  initial : ascii;
  terminal : ascii;
  weight : Z
}.

(** ** The finite state machine *)

Module Drives.

(** [initializeDrives]: the four successive results of [rand()] are passed
    in explicitly, in the order the source draws them. *)
Definition initializeDrives (r1 r2 r3 r4 : Z) : ratState :=
  {| fun_ := Z.rem r1 FUN_MAX;
     health := Z.rem r2 HEALTH_MAX;
     hunger := Z.rem r3 HUNGER_MAX;
     sleep := Z.rem r4 SLEEP_MAX |}.

Definition setPercentage (drives : ratState) : ratState :=
  {| fun_ := Z.quot (100 * fun_ drives) FUN_MAX;
     health := Z.quot (100 * health drives) HEALTH_MAX;
     hunger := Z.quot (100 * hunger drives) HUNGER_MAX;
     sleep := Z.quot (100 * sleep drives) SLEEP_MAX |}.

(** [identifyState]: the pair carries the locals [index] and
    [biggestNeed] through the chain of [if] statements. *)
Definition identifyState (drives : ratState) : ascii :=
  let percent := setPercentage drives in
  let st := (health percent, "M") in
  let st := if hunger percent <? fst st then (hunger percent, "F") else st in
  let st := if sleep percent <? fst st then (sleep percent, "N") else st in
  let st := if fun_ percent <? fst st then (fun_ percent, "W") else st in
  if 50 <? fst st then "E" else snd st.

(** [updateState]: each drive is decremented and then clamped, one after
    the other. *)
Definition clamp0 (v : Z) : Z := if v <? 0 then 0 else v.

Definition updateState (drives : ratState) (travel : Z) : ratState :=
  {| fun_ := clamp0 (fun_ drives - travel);
     health := clamp0 (health drives - travel);
     hunger := clamp0 (hunger drives - travel);
     sleep := clamp0 (sleep drives - travel) |}.

(** [satisfyNeed]: the [switch] on [currentLocation]. *)
Definition satisfyNeed (drives : ratState) (currentLocation : ascii) : ratState :=
  if Ascii.eqb currentLocation "F" then
    {| fun_ := fun_ drives; health := health drives;
       hunger := HUNGER_MAX; sleep := sleep drives |}
  else if Ascii.eqb currentLocation "M" then
    {| fun_ := fun_ drives; health := HEALTH_MAX;
       hunger := hunger drives; sleep := sleep drives |}
  else if Ascii.eqb currentLocation "N" then
    {| fun_ := fun_ drives; health := health drives;
       hunger := hunger drives; sleep := SLEEP_MAX |}
  else if Ascii.eqb currentLocation "W" then
    {| fun_ := FUN_MAX; health := health drives;
       hunger := hunger drives; sleep := sleep drives |}
  else drives.

(** *** Vocabulary of the statements *)

(** The declared bounds of the four drives. *)
Definition in_bounds (d : ratState) : Prop :=
  0 <= fun_ d <= FUN_MAX /\ 0 <= health d <= HEALTH_MAX /\
  0 <= hunger d <= HUNGER_MAX /\ 0 <= sleep d <= SLEEP_MAX.

(** The drives in their order of precedence, each with the letter of the
    node that satisfies it. *)
Definition precedence (percent : ratState) : list (ascii * Z) :=
  [("M", health percent); ("F", hunger percent);
   ("N", sleep percent); ("W", fun_ percent)].

Definition least (percent : ratState) : Z :=
  Z.min (health percent)
        (Z.min (hunger percent) (Z.min (sleep percent) (fun_ percent))).

(** The earliest drive, in order of precedence, whose percentage is the
    least one. *)
Definition neediest (percent : ratState) : ascii :=
  match find (fun cv => snd cv =? least percent) (precedence percent) with
  | Some cv => fst cv
  | None => "M"
  end.

(** The states the simulation loop can reach: it starts from
    [initializeDrives] on four results of [rand()], which are never
    negative, and alternates [updateState], with the distance travelled,
    and [satisfyNeed]. *)
Inductive reachable : ratState -> Prop :=
| reach_init r1 r2 r3 r4 :
    0 <= r1 -> 0 <= r2 -> 0 <= r3 -> 0 <= r4 ->
    reachable (initializeDrives r1 r2 r3 r4)
| reach_update d travel :
    reachable d -> 0 <= travel -> reachable (updateState d travel)
| reach_satisfy d loc :
    reachable d -> reachable (satisfyNeed d loc).

End Drives.

(** ** Dijkstra's algorithm, as the source writes it *)

Module Route.

(** A local variable that is read before any assignment has no defined
    value.  Code that can do so returns an [option], [None] standing for
    that undefined read; the search loop, which has no bound of its own,
    takes fuel and has a third outcome. *)
Inductive outcome (A : Type) : Type :=
| Done (a : A)
| Undefined
| OutOfFuel.
Arguments Done {A} a.
Arguments Undefined {A}.
Arguments OutOfFuel {A}.

(** Arrays of [int]: reads and writes by index.  Every index the program
    uses comes from [nodeToNumber] or from a loop counter below the array's
    size, so the out-of-range cases of [get] and [upd] are never reached. *)
Definition get (a : list Z) (i : nat) : Z := nth i a 0.

Fixpoint upd (i : nat) (v : Z) (a : list Z) : list Z :=
  match a, i with
  | [], _ => []
  | _ :: a', O => v :: a'
  | x :: a', S i' => x :: upd i' v a'
  end.

(** [nodeToNumber]: a letter outside the [switch] leaves [nodeNumber]
    unassigned. *)
Definition nodeToNumber (nodeLetter : ascii) : option nat :=
  if Ascii.eqb nodeLetter "E" then Some 0%nat
  else if Ascii.eqb nodeLetter "N" then Some 1%nat
  else if Ascii.eqb nodeLetter "F" then Some 2%nat
  else if Ascii.eqb nodeLetter "A" then Some 3%nat
  else if Ascii.eqb nodeLetter "W" then Some 4%nat
  else if Ascii.eqb nodeLetter "B" then Some 5%nat
  else if Ascii.eqb nodeLetter "M" then Some 6%nat
  else None.

(** [numberToNode]: a number outside the [switch] leaves [nodeLetter]
    unassigned. *)
Definition numberToNode (nodeNumber : nat) : option ascii :=
  match nodeNumber with
  | 0%nat => Some "E"
  | 1%nat => Some "N"
  | 2%nat => Some "F"
  | 3%nat => Some "A"
  | 4%nat => Some "W"
  | 5%nat => Some "B"
  | 6%nat => Some "M"
  | _ => None
  end.

Definition initializeNodeWeight : list Z :=
  repeat INFINITY_APPROX (VERTEX_COUNT / 2).

(** [findNeighbors]: the loop over the entries of [newGraph], in order;
    [nodeWeight] is threaded through it. *)
Fixpoint findNeighbors (newGraph : list edgeWeight) (nodeWeight : list Z)
    (currentNode : ascii) (currentNum : nat) : option (list Z) :=
  match newGraph with
  | [] => Some nodeWeight
  | e :: rest =>
      if Ascii.eqb currentNode (initial e) then
        match nodeToNumber (terminal e) with
        | None => None
        | Some neighborNode =>
            if weight e + get nodeWeight currentNum <? get nodeWeight neighborNode
            then findNeighbors rest
                   (upd neighborNode (weight e + get nodeWeight currentNum) nodeWeight)
                   currentNode currentNum
            else findNeighbors rest nodeWeight currentNode currentNum
        end
      else findNeighbors rest nodeWeight currentNode currentNum
  end.

(** [removeVertex]: the weight of a removed entry stays as it was. *)
Definition removeVertex (newGraph : list edgeWeight) (currentLocation : ascii)
    : list edgeWeight :=
  map (fun e =>
         if Ascii.eqb (terminal e) currentLocation
         then {| initial := "Z"; terminal := "Z"; weight := weight e |}
         else e)
      newGraph.

(** [findLeast]: the loop state is the pair of the locals [base] and
    [node]; [node] has no value until the first assignment. *)
Definition findLeast_step (nodeWeight : list Z) (st : Z * option nat) (i : nat)
    : Z * option nat :=
  if negb (get nodeWeight i =? 0) && (get nodeWeight i <? fst st)
  then (get nodeWeight i, Some i)
  else st.

Definition findLeast (nodeWeight : list Z) : option ascii :=
  match snd (fold_left (findLeast_step nodeWeight)
                       (seq 0 (VERTEX_COUNT / 2)) (42, None)) with
  | None => None
  | Some node => numberToNode node
  end.

(** The [while] loop of [findRoute].  One unit of fuel pays for one
    execution of the loop body. *)
Fixpoint findRoute_loop (fuel : nat) (newGraph : list edgeWeight)
    (nodeWeight : list Z) (currentNode terminalNode : ascii) (currentNum : nat)
    : outcome (ascii * Z) :=
  if Ascii.eqb currentNode terminalNode
  then Done (currentNode, get nodeWeight currentNum)
  else
    match fuel with
    | O => OutOfFuel
    | S fuel' =>
        match findNeighbors newGraph nodeWeight currentNode currentNum with
        | None => Undefined
        | Some nodeWeight1 =>
            let newGraph1 := removeVertex newGraph currentNode in
            let nodeWeight2 := upd currentNum 0 nodeWeight1 in
            match findLeast nodeWeight2 with
            | None => Undefined
            | Some nextNode =>
                match nodeToNumber nextNode with
                | None => Undefined
                | Some nextNum =>
                    findRoute_loop fuel' newGraph1 nodeWeight2
                                   nextNode terminalNode nextNum
                end
            end
        end
    end.

(** [findRoute] returns the new value of the reference parameter
    [currentLocation] together with the distance.  The pruned working copy
    [newGraph] is dropped: the caller overwrites it by [copyGraph] before
    the next search. *)
Definition findRoute (fuel : nat) (newGraph : list edgeWeight)
    (currentLocation currentState : ascii) : outcome (ascii * Z) :=
  match nodeToNumber currentLocation with
  | None => Undefined
  | Some currentNum =>
      findRoute_loop fuel newGraph (upd currentNum 0 initializeNodeWeight)
                     currentLocation currentState currentNum
  end.

(** *** Vocabulary of the statements *)

Definition nodeAlphabet : list ascii := ["E"; "N"; "F"; "A"; "W"; "B"; "M"].

Definition is_node (c : ascii) : Prop := In c nodeAlphabet.

(** [path g x y d]: a directed path from [x] to [y] along entries of [g]
    whose weights add up to [d]. *)
Inductive path (g : list edgeWeight) : ascii -> ascii -> Z -> Prop :=
| path_nil x : path g x x 0
| path_cons e y d :
    In e g -> path g (terminal e) y d ->
    path g (initial e) y (weight e + d).

Definition is_shortest (g : list edgeWeight) (x y : ascii) (d : Z) : Prop :=
  path g x y d /\ forall d', path g x y d' -> d <= d'.

Definition total_weight (g : list edgeWeight) : Z :=
  fold_right (fun e acc => weight e + acc) 0 g.

(** A graph as the data model describes it: [VERTEX_COUNT] entries between
    letters of the node alphabet, weights that are not negative and that
    add up to less than the sentinel. *)
Definition valid_graph (g : list edgeWeight) : Prop :=
  List.length g = VERTEX_COUNT /\
  Forall (fun e => is_node (initial e) /\ is_node (terminal e) /\ 0 <= weight e) g /\
  total_weight g < INFINITY_APPROX.

Definition positive_weights (g : list edgeWeight) : Prop :=
  Forall (fun e => 0 < weight e) g.

End Route.

(** ** Loading the graph *)

Module Loader.

(** The input file stream: the characters not yet consumed and [good],
    which is true until an extraction fails ([!inFile.fail()]).  Once an
    extraction has failed, every later extraction leaves its target
    alone. *)
Record istream : Set := mkStream {
  buffer : string;
  good : bool
}.

Definition isspace (c : ascii) : bool :=
  let n := nat_of_ascii c in
  Nat.eqb n 32 || (Nat.leb 9 n && Nat.leb n 13).

Definition isdigit (c : ascii) : bool :=
  let n := nat_of_ascii c in Nat.leb 48 n && Nat.leb n 57.

Definition digit_value (c : ascii) : Z := Z.of_nat (nat_of_ascii c) - 48.

Fixpoint skipws (s : string) : string :=
  match s with
  | String c rest => if isspace c then skipws rest else s
  | EmptyString => s
  end.

(** [stream >> ch] for a [char]: the result is the character stored, or
    [None] when nothing is stored. *)
Definition extract_char (s : istream) : istream * option ascii :=
  if good s then
    match skipws (buffer s) with
    | String c rest => ({| buffer := rest; good := true |}, Some c)
    | EmptyString => ({| buffer := EmptyString; good := false |}, None)
    end
  else (s, None).

(** The digits at the front of the buffer, most significant first. *)
Fixpoint digits (s : string) (acc : Z) (seen : bool) : Z * bool * string :=
  match s with
  | String c rest =>
      if isdigit c then digits rest (10 * acc + digit_value c) true
      else (acc, seen, s)
  | EmptyString => (acc, seen, s)
  end.

Definition INT_MAX : Z := 2147483647.
Definition INT_MIN : Z := -2147483648.

(** [stream >> n] for an [int], in decimal: an optional sign and at least
    one digit.  When the input ends before any character of the number,
    nothing is stored.  A failed conversion stores 0 and a value out of
    range stores the nearest bound, both failing the stream. *)
Definition extract_int (s : istream) : istream * option Z :=
  if good s then
    match skipws (buffer s) with
    | EmptyString => ({| buffer := EmptyString; good := false |}, None)
    | String c rest =>
        let '(neg, b1) :=
          if Ascii.eqb c "-" then (true, rest)
          else if Ascii.eqb c "+" then (false, rest)
          else (false, String c rest) in
        let '(v, seen, b2) := digits b1 0 false in
        let v := if neg then - v else v in
        if negb seen then ({| buffer := b2; good := false |}, Some 0)
        else if INT_MAX <? v then ({| buffer := b2; good := false |}, Some INT_MAX)
        else if v <? INT_MIN then ({| buffer := b2; good := false |}, Some INT_MIN)
        else ({| buffer := b2; good := true |}, Some v)
    end
  else (s, None).

(** An entry of [baseGraph] as [main] declares it: no field has a value
    before something is stored in it. *)
Record slot : Set := mkSlot {
  s_initial : option ascii;
  s_terminal : option ascii;
  s_weight : option Z
}.

Definition unassigned : slot :=
  {| s_initial := None; s_terminal := None; s_weight := None |}.

(** The loop of [loadGraph]: one entry per round, [n] rounds; the second
    component counts the rounds that left the stream good. *)
Fixpoint load_loop (n : nat) (s : istream) : list slot * nat :=
  match n with
  | O => ([], O)
  | S n' =>
      let '(s1, a) := extract_char s in
      let '(s2, b) := extract_char s1 in
      let '(s3, w) := extract_int s2 in
      let '(entries, k) := load_loop n' s3 in
      ({| s_initial := a; s_terminal := b; s_weight := w |} :: entries,
       if good s3 then S k else k)
  end.

(** [loadGraph]: [None] is a file that cannot be opened.  The result is
    the returned [bool] and the contents of [baseGraph]. *)
Definition loadGraph (file : option string) : bool * list slot :=
  match file with
  | None => (false, repeat unassigned VERTEX_COUNT)
  | Some contents =>
      (true, fst (load_loop VERTEX_COUNT {| buffer := contents; good := true |}))
  end.

(** *** Vocabulary of the statements *)

(** The number of well-formed triples at the front of a source. *)
Definition triples_read (contents : string) : nat :=
  snd (load_loop VERTEX_COUNT {| buffer := contents; good := true |}).

Definition populated (e : slot) : bool :=
  match s_initial e, s_terminal e, s_weight e with
  | Some _, Some _, Some _ => true
  | _, _, _ => false
  end.

End Loader.

(** ** The range of [int] *)

Module Ints.

Import Loader.

(** [numberToNode] on every [int]: the [switch] has no case below 0
    either.  [Route.numberToNode] is the same [switch] on the loop indices
    of [findLeast], which are never negative. *)
Definition numberToNode (nodeNumber : Z) : option ascii :=
  if nodeNumber =? 0 then Some "E"
  else if nodeNumber =? 1 then Some "N"
  else if nodeNumber =? 2 then Some "F"
  else if nodeNumber =? 3 then Some "A"
  else if nodeNumber =? 4 then Some "W"
  else if nodeNumber =? 5 then Some "B"
  else if nodeNumber =? 6 then Some "M"
  else None.

(** Weights with which no sum of the search leaves the range of [int]:
    the search adds a weight to the entry of the current node only, and
    that entry is below the sentinel. *)
Definition bounded_weights (g : list edgeWeight) : Prop :=
  Forall (fun e => 0 <= weight e <= INT_MAX - INFINITY_APPROX) g.

End Ints.

(** ** Vocabulary for the drives and the nodes that satisfy them *)

Module Needs.

Inductive drive : Set := Fun | Health | Hunger | Sleep.

Definition value (k : drive) (d : ratState) : Z :=
  match k with
  | Fun => fun_ d
  | Health => health d
  | Hunger => hunger d
  | Sleep => sleep d
  end.

Definition maximum (k : drive) : Z :=
  match k with
  | Fun => FUN_MAX
  | Health => HEALTH_MAX
  | Hunger => HUNGER_MAX
  | Sleep => SLEEP_MAX
  end.

(** The drive a node satisfies: food bowl, medicine dispenser, nest and
    exercise wheel; no other node satisfies any. *)
Definition associated (c : ascii) : option drive :=
  if Ascii.eqb c "F" then Some Hunger
  else if Ascii.eqb c "M" then Some Health
  else if Ascii.eqb c "N" then Some Sleep
  else if Ascii.eqb c "W" then Some Fun
  else None.

(** Floor of the percentage [100 * v / max]. *)
Definition floor_percent (v max : Z) : Z := (100 * v) / max.

End Needs.

(** ** The invariant of the search loop *)

Module SearchInv.

Import Route.

(** The index of a node letter, and the entry of [nodeWeight] that
    belongs to it. *)
Definition idx (c : ascii) : nat :=
  match nodeToNumber c with
  | Some n => n
  | None => O
  end.

Definition wt (nodeWeight : list Z) (c : ascii) : Z := get nodeWeight (idx c).

Definition mem (c : ascii) (V : list ascii) : bool := existsb (Ascii.eqb c) V.

(** The working copy after the vertices of [V] have been removed from the
    graph [g]. *)
Definition prune (V : list ascii) (g : list edgeWeight) : list edgeWeight :=
  map (fun e =>
         if mem (terminal e) V
         then {| initial := "Z"; terminal := "Z"; weight := weight e |}
         else e)
      g.

(** The weights of the entries of [g] that do not end in [V], added up. *)
Definition rest (V : list ascii) (g : list edgeWeight) : Z :=
  total_weight (filter (fun e => negb (mem (terminal e) V)) g).

(** What holds each time the loop of [findRoute] tests its condition,
    during a search from [src] to [dst] in [g]: [V] holds the vertices
    removed so far, [c] is the current node, [D] the distances of the nodes
    of [c :: V] from [src], [G] the working copy and [W] the array
    [nodeWeight]. *)
Record search_inv (g : list edgeWeight) (src dst : ascii)
    (V : list ascii) (D : ascii -> Z) (G : list edgeWeight) (W : list Z)
    (c : ascii) : Prop := {
  inv_nodup : NoDup (c :: V);
  inv_src : In src (c :: V);
  inv_dst : ~ In dst V;
  inv_graph : G = prune V g;
  inv_length : List.length W = (VERTEX_COUNT / 2)%nat;
  inv_spare : forall j, (6 < j)%nat -> (j < VERTEX_COUNT / 2)%nat ->
                        get W j = INFINITY_APPROX;
  inv_visited : forall v, In v V -> wt W v = 0;
  inv_current : wt W c = D c;
  inv_settled : forall v, In v (c :: V) ->
      is_node v /\ is_shortest g src v (D v) /\
      D v + rest (c :: V) g <= total_weight g;
  inv_attained : forall u, is_node u -> ~ In u (c :: V) ->
      wt W u = INFINITY_APPROX \/
      exists e, In e g /\ In (initial e) V /\ terminal e = u /\
                wt W u = D (initial e) + weight e;
  inv_bound : forall u, is_node u -> ~ In u (c :: V) ->
      wt W u <= INFINITY_APPROX /\
      forall e, In e g -> In (initial e) V -> terminal e = u ->
                wt W u <= D (initial e) + weight e
}.

End SearchInv.

(** ** What the search keeps on any graph *)

Module WalkInv.

Import Route SearchInv.

(** What holds each time the loop of [findRoute] tests its condition,
    whatever the entries of the graph [g] are: the removed vertices [V]
    and the current node [c] are distinct nodes, the entries of the removed
    ones are 0, and every entry below the sentinel that belongs to a node
    not yet removed is the weight of a path from [src]. *)
Record walk_inv (g : list edgeWeight) (src : ascii)
    (V : list ascii) (G : list edgeWeight) (W : list Z) (c : ascii)
    : Prop := {
  walk_nodup : NoDup (c :: V);
  walk_nodes : forall v, In v (c :: V) -> is_node v;
  walk_graph : G = prune V g;
  walk_length : List.length W = (VERTEX_COUNT / 2)%nat;
  walk_visited : forall v, In v V -> wt W v = 0;
  walk_current : path g src c (wt W c);
  walk_low : wt W c < INFINITY_APPROX;
  walk_zero : wt W c = 0 -> c = src;
  walk_fringe : forall u, is_node u -> ~ In u (c :: V) ->
      wt W u = INFINITY_APPROX \/ path g src u (wt W u)
}.

End WalkInv.


(** ** Concrete graphs and sources used in the examples *)

Module Examples.

(** A maze of eighteen entries with positive weights that add up to 34. *)
Definition maze_graph : list edgeWeight :=
  [mkEdge "E" "N" 2; mkEdge "N" "E" 2; mkEdge "E" "F" 3; mkEdge "F" "E" 3;
   mkEdge "N" "A" 1; mkEdge "A" "N" 1; mkEdge "F" "A" 2; mkEdge "A" "F" 2;
   mkEdge "A" "W" 2; mkEdge "W" "A" 2; mkEdge "A" "B" 1; mkEdge "B" "A" 1;
   mkEdge "W" "M" 3; mkEdge "M" "W" 3; mkEdge "B" "M" 2; mkEdge "M" "B" 2;
   mkEdge "W" "B" 1; mkEdge "B" "W" 1].

(** Eighteen entries, one of weight 0: the nest is at distance 0 from the
    exit, and node A at distance 1 through the nest. *)
Definition zero_graph : list edgeWeight :=
  [mkEdge "E" "N" 0; mkEdge "N" "A" 1; mkEdge "E" "F" 3; mkEdge "F" "A" 2]
  ++ repeat (mkEdge "M" "B" 1) 14.

(** Eighteen entries between the exit and the nest only: no other node
    can be reached from either. *)
Definition island_graph : list edgeWeight :=
  repeat (mkEdge "E" "N" 1) 9 ++ repeat (mkEdge "N" "E" 1) 9.

Definition newline : string := String (ascii_of_nat 10) EmptyString.

(** A source of seventeen triples, one per line. *)
Definition short_source : string :=
  String.concat newline
    ["E N 2"; "N E 2"; "E F 3"; "F E 3"; "N A 1"; "A N 1"; "F A 2"; "A F 2";
     "A W 2"; "W A 2"; "A B 1"; "B A 1"; "W M 3"; "M W 3"; "B M 2"; "M B 2";
     "W B 1"]%string.

End Examples.


(** ** The simulation loop *)

Module Simulation.

Import Drives Route Loader.

(** [copyGraph]: field by field, entry by entry. *)
Definition copyGraph (baseGraph : list edgeWeight) : list edgeWeight :=
  map (fun e => {| initial := initial e;
                   terminal := terminal e;
                   weight := weight e |})
      baseGraph.

(** One pass through the body of the [do] loop of [main]: the new drives
    and the new location. *)
Definition round (fuel : nat) (baseGraph : list edgeWeight)
    (drives : ratState) (currentLocation : ascii)
    : outcome (ratState * ascii) :=
  let newGraph := copyGraph baseGraph in
  let currentState := identifyState drives in
  match findRoute fuel newGraph currentLocation currentState with
  | Done (location, travel) =>
      Done (satisfyNeed (updateState drives travel) location, location)
  | Undefined => Undefined
  | OutOfFuel => OutOfFuel
  end.

(** The [do ... while (currentLocation != 'E')] loop; [rounds] bounds the
    number of passes, [fuel] the rounds of each search. *)
Fixpoint simulate (rounds fuel : nat) (baseGraph : list edgeWeight)
    (drives : ratState) (currentLocation : ascii) : outcome ratState :=
  match rounds with
  | O => OutOfFuel
  | S rounds' =>
      match round fuel baseGraph drives currentLocation with
      | Done (drives', location) =>
          if Ascii.eqb location "E" then Done drives'
          else simulate rounds' fuel baseGraph drives' location
      | Undefined => Undefined
      | OutOfFuel => OutOfFuel
      end
  end.

(** Reading the entries that [loadGraph] left in [baseGraph]: an entry
    with a field that was never assigned has no value to copy. *)
Definition read_entry (e : slot) : option edgeWeight :=
  match s_initial e, s_terminal e, s_weight e with
  | Some a, Some b, Some w => Some {| initial := a; terminal := b; weight := w |}
  | _, _, _ => None
  end.

Fixpoint read_graph (entries : list slot) : option (list edgeWeight) :=
  match entries with
  | [] => Some []
  | e :: rest =>
      match read_entry e, read_graph rest with
      | Some x, Some xs => Some (x :: xs)
      | _, _ => None
      end
  end.

(** [main]: the exit status.  The file, the four results of [rand()] and
    the two bounds are its inputs; the name typed by the user is only
    printed. *)
Definition main (file : option string) (r1 r2 r3 r4 : Z) (rounds fuel : nat)
    : outcome Z :=
  match loadGraph file with
  | (false, _) => Done 1
  | (true, baseGraph) =>
      match read_graph baseGraph with
      | None => Undefined
      | Some g =>
          match simulate rounds fuel g (initializeDrives r1 r2 r3 r4) "E" with
          | Done _ => Done 0
          | Undefined => Undefined
          | OutOfFuel => OutOfFuel
          end
      end
  end.

End Simulation.

(** ** Well-formed sources *)

Module Source.

Import Loader.

(** A triple as it stands in the file: two letters and the digits of the
    weight. *)
Definition triple : Set := (ascii * ascii * string)%type.

Definition line (t : triple) : string :=
  let '(a, b, ds) := t in
  String a (String " " (String b (String " " (ds ++ Examples.newline)))).

Fixpoint render (ts : list triple) : string :=
  match ts with
  | [] => EmptyString
  | t :: rest => (line t ++ render rest)%string
  end.

(** The number that a string of digits writes. *)
Fixpoint decimal_from (acc : Z) (ds : string) : Z :=
  match ds with
  | EmptyString => acc
  | String c rest => decimal_from (10 * acc + digit_value c) rest
  end.

Definition decimal (ds : string) : Z := decimal_from 0 ds.

Fixpoint all_digits (ds : string) : bool :=
  match ds with
  | EmptyString => true
  | String c rest => isdigit c && all_digits rest
  end.

Definition well_formed (t : triple) : Prop :=
  let '(a, b, ds) := t in
  isspace a = false /\ isspace b = false /\
  ds <> EmptyString /\ all_digits ds = true /\ decimal ds <= INT_MAX.

Definition entry_of (t : triple) : slot :=
  let '(a, b, ds) := t in
  {| s_initial := Some a; s_terminal := Some b; s_weight := Some (decimal ds) |}.

Definition edge_of (t : triple) : edgeWeight :=
  let '(a, b, ds) := t in
  {| initial := a; terminal := b; weight := decimal ds |}.

Definition mk (a b : ascii) (ds : string) : triple := (a, b, ds).

(** The maze of the examples, as the triples of a file. *)
Definition maze_triples : list triple :=
  [mk "E" "N" "2"; mk "N" "E" "2"; mk "E" "F" "3";
   mk "F" "E" "3"; mk "N" "A" "1"; mk "A" "N" "1";
   mk "F" "A" "2"; mk "A" "F" "2"; mk "A" "W" "2";
   mk "W" "A" "2"; mk "A" "B" "1"; mk "B" "A" "1";
   mk "W" "M" "3"; mk "M" "W" "3"; mk "B" "M" "2";
   mk "M" "B" "2"; mk "W" "B" "1"; mk "B" "W" "1"].

End Source.


(** * Properties of the finite state machine *)

Section DriveFacts.

Import Drives Needs.

Lemma clamp0_max v : clamp0 v = Z.max 0 v.
Proof. unfold clamp0. destruct (Z.ltb_spec v 0); lia. Qed.

Lemma clamp0_nonneg v : 0 <= clamp0 v.
Proof. rewrite clamp0_max. lia. Qed.

Lemma clamp0_le v b : v <= b -> 0 <= b -> clamp0 v <= b.
Proof. rewrite clamp0_max. lia. Qed.

Ltac split_compare :=
  repeat match goal with
         | |- context [?a <? ?b] => destruct (Z.ltb_spec a b)
         | |- context [?a =? ?b] => destruct (Z.eqb_spec a b)
         end.

(** C4. [identifyState] answers the exit when the least of the four
    percentages exceeds 50, and otherwise the node of the earliest drive,
    in the order health, hunger, sleep, fun, whose percentage is that
    least one. *)
Theorem identifyState_selects_neediest (drives : ratState) :
  identifyState drives =
  if 50 <? least (setPercentage drives) then "E"
  else neediest (setPercentage drives).
Proof.
  unfold identifyState, neediest, least, precedence.
  generalize (setPercentage drives) as p. intros [f h u s].
  cbn [fun_ health hunger sleep fst snd find].
  remember (Z.min h (Z.min u (Z.min s f))) as m eqn:Hm.
  assert (Hle : m <= h /\ m <= u /\ m <= s /\ m <= f) by lia.
  assert (Hex : m = h \/ m = u \/ m = s \/ m = f) by lia.
  clear Hm.
  destruct (Z.ltb_spec u h); cbn [fst snd];
    (match goal with
     | |- context [s <? ?x] => destruct (Z.ltb_spec s x)
     end; cbn [fst snd]);
    (match goal with
     | |- context [f <? ?x] => destruct (Z.ltb_spec f x)
     end; cbn [fst snd]);
    split_compare; cbn [fst snd]; try reflexivity; exfalso; lia.
Qed.

(** The drive that [neediest] names has the least percentage, and every
    drive listed before it has a strictly larger one. *)
Lemma neediest_first_minimum (p : ratState) :
  exists pre v post,
    precedence p = pre ++ (neediest p, v) :: post /\
    v = least p /\
    Forall (fun cv => least p < snd cv) pre.
Proof.
  unfold neediest, least, precedence. destruct p as [f h u s]. cbn.
  destruct (Z.eqb_spec h (Z.min h (Z.min u (Z.min s f)))).
  { exists [], h, [("F", u); ("N", s); ("W", f)]. cbn. auto. }
  destruct (Z.eqb_spec u (Z.min h (Z.min u (Z.min s f)))).
  { exists [("M", h)], u, [("N", s); ("W", f)]. cbn.
    repeat split; auto. constructor; [cbn; lia | constructor]. }
  destruct (Z.eqb_spec s (Z.min h (Z.min u (Z.min s f)))).
  { exists [("M", h); ("F", u)], s, [("W", f)]. cbn.
    repeat split; auto. repeat constructor; cbn; lia. }
  destruct (Z.eqb_spec f (Z.min h (Z.min u (Z.min s f)))).
  { exists [("M", h); ("F", u); ("N", s)], f, []. cbn.
    repeat split; auto. repeat constructor; cbn; lia. }
  exfalso; lia.
Qed.

(** The two examples of the specification, on drives with these
    percentages: health 40, hunger 40, sleep 10 and a higher fun go to the
    nest; four drives at 60 percent or more go to the exit. *)
Example identifyState_nap :
  setPercentage (mkRat 32 24 12 4) = mkRat 91 40 40 10 /\
  identifyState (mkRat 32 24 12 4) = "N".
Proof. split; reflexivity. Qed.

Example identifyState_exit :
  setPercentage (mkRat 21 36 18 24) = mkRat 60 60 60 60 /\
  identifyState (mkRat 21 36 18 24) = "E".
Proof. split; reflexivity. Qed.

(** C5. For a distance that is not negative, [updateState] leaves each
    drive at the larger of 0 and its old value less the distance, so no
    drive falls below 0. *)
Theorem updateState_decays_and_clamps (drives : ratState) (travel : Z) :
  0 <= travel ->
  (forall k, value k (updateState drives travel)
             = Z.max 0 (value k drives - travel)) /\
  (forall k, 0 <= value k (updateState drives travel)).
Proof.
  intros _. split; intros []; cbn;
    first [apply clamp0_max | apply clamp0_nonneg].
Qed.

Lemma updateState_decays_and_clamps_witness :
  0 <= 7 /\
  (forall k, value k (updateState (mkRat 10 50 5 20) 7)
             = Z.max 0 (value k (mkRat 10 50 5 20) - 7)) /\
  (forall k, 0 <= value k (updateState (mkRat 10 50 5 20) 7)).
Proof.
  split; [lia | apply (updateState_decays_and_clamps (mkRat 10 50 5 20) 7); lia].
Defined.

(** C6. [satisfyNeed] sets the drive associated with the arrival node to
    its maximum and keeps the other three; at a node with no associated
    drive it returns the state it was given. *)
Theorem satisfyNeed_frame (drives : ratState) (currentLocation : ascii) :
  match associated currentLocation with
  | Some k =>
      value k (satisfyNeed drives currentLocation) = maximum k /\
      forall k', k' <> k ->
        value k' (satisfyNeed drives currentLocation) = value k' drives
  | None => satisfyNeed drives currentLocation = drives
  end.
Proof.
  unfold associated, satisfyNeed.
  destruct (Ascii.eqb currentLocation "F");
    [split; [reflexivity | intros [] Hk; try reflexivity; congruence] |].
  destruct (Ascii.eqb currentLocation "M");
    [split; [reflexivity | intros [] Hk; try reflexivity; congruence] |].
  destruct (Ascii.eqb currentLocation "N");
    [split; [reflexivity | intros [] Hk; try reflexivity; congruence] |].
  destruct (Ascii.eqb currentLocation "W");
    [split; [reflexivity | intros [] Hk; try reflexivity; congruence] |].
  reflexivity.
Qed.

Lemma satisfyNeed_frame_witness :
  Fun <> Hunger /\
  value Fun (satisfyNeed (mkRat 10 50 5 20) "F") = value Fun (mkRat 10 50 5 20).
Proof.
  split; [discriminate |].
  apply (proj2 (satisfyNeed_frame (mkRat 10 50 5 20) "F")). discriminate.
Defined.

(** The association and the maxima, node by node. *)
Lemma associated_table :
  associated "F" = Some Hunger /\ maximum Hunger = 30 /\
  associated "M" = Some Health /\ maximum Health = 60 /\
  associated "N" = Some Sleep /\ maximum Sleep = 40 /\
  associated "W" = Some Fun /\ maximum Fun = 35 /\
  associated "E" = None.
Proof. repeat split. Qed.

Lemma associated_none c :
  c <> "F" -> c <> "M" -> c <> "N" -> c <> "W" -> associated c = None.
Proof.
  intros HF HM HN HW. unfold associated.
  apply Ascii.eqb_neq in HF, HM, HN, HW. now rewrite HF, HM, HN, HW.
Qed.

(** C8. On drives inside their declared bounds [setPercentage] yields the
    floor of [100 * value / max] for each drive; the truncating division of
    the code and the floor agree there. *)
Theorem setPercentage_floor (drives : ratState) :
  in_bounds drives ->
  setPercentage drives =
  {| fun_ := floor_percent (fun_ drives) 35;
     health := floor_percent (health drives) 60;
     hunger := floor_percent (hunger drives) 30;
     sleep := floor_percent (sleep drives) 40 |}.
Proof.
  intros (Hf & Hh & Hu & Hs). unfold setPercentage, floor_percent.
  unfold FUN_MAX, HEALTH_MAX, HUNGER_MAX, SLEEP_MAX in *.
  rewrite !Z.quot_div_nonneg by lia. reflexivity.
Qed.

Lemma setPercentage_floor_witness :
  in_bounds (mkRat 10 50 5 20) /\
  setPercentage (mkRat 10 50 5 20) = mkRat 28 83 16 50.
Proof.
  split.
  - unfold in_bounds, FUN_MAX, HEALTH_MAX, HUNGER_MAX, SLEEP_MAX; cbn; lia.
  - rewrite (setPercentage_floor (mkRat 10 50 5 20)); [reflexivity |].
    unfold in_bounds, FUN_MAX, HEALTH_MAX, HUNGER_MAX, SLEEP_MAX; cbn; lia.
Defined.

(** [floor_percent] is the floor: the largest integer [p] with
    [max * p <= 100 * v]. *)
Lemma floor_percent_spec v max :
  0 < max ->
  max * floor_percent v max <= 100 * v < max * (floor_percent v max + 1).
Proof.
  intros Hmax. unfold floor_percent.
  pose proof (Z.div_mod (100 * v) max ltac:(lia)).
  pose proof (Z.mod_pos_bound (100 * v) max Hmax). lia.
Qed.

(** 10 of 35 is 28.57 percent: the code answers 28, rounding would give
    29. *)
Example setPercentage_truncates :
  fun_ (setPercentage (mkRat 10 0 0 0)) = 28.
Proof. reflexivity. Qed.

(** C10. Every state reached from [initializeDrives] by [updateState],
    with distances that are not negative, and [satisfyNeed] has its four
    drives inside their bounds. *)
Theorem drives_stay_in_bounds (d : ratState) :
  reachable d -> in_bounds d.
Proof.
  unfold in_bounds, FUN_MAX, HEALTH_MAX, HUNGER_MAX, SLEEP_MAX.
  induction 1 as [r1 r2 r3 r4 H1 H2 H3 H4 | d travel Hd IH Ht | d loc Hd IH].
  - cbn. unfold FUN_MAX, HEALTH_MAX, HUNGER_MAX, SLEEP_MAX.
    pose proof (Z.rem_bound_pos r1 35 H1 ltac:(lia)).
    pose proof (Z.rem_bound_pos r2 60 H2 ltac:(lia)).
    pose proof (Z.rem_bound_pos r3 30 H3 ltac:(lia)).
    pose proof (Z.rem_bound_pos r4 40 H4 ltac:(lia)).
    lia.
  - cbn. repeat split; first [apply clamp0_nonneg | apply clamp0_le; lia].
  - unfold satisfyNeed, FUN_MAX, HEALTH_MAX, HUNGER_MAX, SLEEP_MAX.
    destruct (Ascii.eqb loc "F"); [cbn; lia |].
    destruct (Ascii.eqb loc "M"); [cbn; lia |].
    destruct (Ascii.eqb loc "N"); [cbn; lia |].
    destruct (Ascii.eqb loc "W"); [cbn; lia |].
    exact IH.
Qed.

Lemma drives_stay_in_bounds_witness :
  in_bounds (satisfyNeed (updateState (initializeDrives 1000 2000 3000 4000) 3) "F").
Proof.
  apply (drives_stay_in_bounds
           (satisfyNeed (updateState (initializeDrives 1000 2000 3000 4000) 3) "F")).
  apply reach_satisfy. apply reach_update; [| lia].
  apply reach_init; lia.
Defined.

End DriveFacts.

(** * Properties of the node numbering *)

Section NodeFacts.

Import Route SearchInv.

Lemma get_upd_eq a i v : (i < List.length a)%nat -> get (upd i v a) i = v.
Proof.
  unfold get. revert i. induction a as [| x a IH]; intros [| i] Hi; cbn in *;
    try lia; try reflexivity; apply IH; lia.
Qed.

Lemma get_upd_ne a i j v : i <> j -> get (upd i v a) j = get a j.
Proof.
  unfold get. revert i j.
  induction a as [| x a IH]; intros [| i] [| j] Hij; cbn; try reflexivity;
    try congruence.
  apply IH. congruence.
Qed.

Lemma length_upd a i v : List.length (upd i v a) = List.length a.
Proof.
  revert i. induction a as [| x a IH]; intros [| i]; cbn; try reflexivity.
  now rewrite IH.
Qed.

Lemma nodeToNumber_inv c n :
  nodeToNumber c = Some n ->
  is_node c /\ numberToNode n = Some c /\ (n <= 6)%nat.
Proof.
  unfold nodeToNumber, is_node, nodeAlphabet.
  repeat match goal with
         | |- context [Ascii.eqb c ?x] =>
             destruct (Ascii.eqb_spec c x) as [-> | ?]
         end; intros [= <-]; cbn; repeat split; auto 10; lia.
Qed.

Lemma numberToNode_inv n c :
  numberToNode n = Some c ->
  is_node c /\ nodeToNumber c = Some n /\ (n <= 6)%nat.
Proof.
  unfold is_node, nodeAlphabet.
  do 7 (destruct n as [| n]; [intros [= <-]; cbn; repeat split; auto 10; lia |]).
  discriminate.
Qed.

Lemma is_node_number c :
  is_node c ->
  exists n, nodeToNumber c = Some n /\ (n <= 6)%nat /\ numberToNode n = Some c.
Proof.
  unfold is_node, nodeAlphabet. cbn.
  intros [<- | [<- | [<- | [<- | [<- | [<- | [<- | []]]]]]]]; cbn;
    eexists; repeat split; lia.
Qed.

Lemma number_node n :
  (n <= 6)%nat ->
  exists c, numberToNode n = Some c /\ is_node c /\ nodeToNumber c = Some n.
Proof.
  intros Hn.
  do 7 (destruct n as [| n];
        [eexists; split; [reflexivity |];
         split; [unfold is_node, nodeAlphabet; cbn; auto 10 | reflexivity] |]).
  lia.
Qed.

(** C9. On the seven node letters and the indices 0 to 6, [nodeToNumber]
    and [numberToNode] are defined and undo each other. *)
Theorem node_number_bijection :
  (forall c, is_node c ->
     exists n, nodeToNumber c = Some n /\ (n <= 6)%nat /\
               numberToNode n = Some c) /\
  (forall n, (n <= 6)%nat ->
     exists c, numberToNode n = Some c /\ is_node c /\
               nodeToNumber c = Some n).
Proof. split; [exact is_node_number | exact number_node]. Qed.

Lemma node_number_bijection_witness :
  is_node "W" /\ (4 <= 6)%nat /\
  (exists n, nodeToNumber "W" = Some n /\ (n <= 6)%nat /\
             numberToNode n = Some "W") /\
  (exists c, numberToNode 4 = Some c /\ is_node c /\
             nodeToNumber c = Some 4%nat).
Proof.
  assert (HW : is_node "W") by (unfold is_node, nodeAlphabet; cbn; auto 10).
  assert (H4 : (4 <= 6)%nat) by lia.
  split; [exact HW |]. split; [exact H4 |]. split.
  - exact (proj1 node_number_bijection "W" HW).
  - exact (proj2 node_number_bijection 4%nat H4).
Defined.

(** The letters, index by index. *)
Lemma node_number_table :
  map nodeToNumber nodeAlphabet = map Some (seq 0 7) /\
  map numberToNode (seq 0 7) = map Some nodeAlphabet.
Proof. split; reflexivity. Qed.

Lemma idx_spec c : is_node c -> nodeToNumber c = Some (idx c) /\ (idx c <= 6)%nat.
Proof.
  intros Hc. destruct (is_node_number c Hc) as (n & Hn & Hle & _).
  unfold idx. rewrite Hn. auto.
Qed.

Lemma idx_inj u v : is_node u -> is_node v -> idx u = idx v -> u = v.
Proof.
  intros Hu Hv E.
  destruct (idx_spec u Hu) as [Eu _]. destruct (idx_spec v Hv) as [Ev _].
  apply nodeToNumber_inv in Eu, Ev.
  destruct Eu as (_ & Eu & _). destruct Ev as (_ & Ev & _).
  rewrite E in Eu. congruence.
Qed.

Lemma nodeToNumber_idx c n : nodeToNumber c = Some n -> idx c = n.
Proof. unfold idx. now intros ->. Qed.

End NodeFacts.

(** * Properties of the route search *)

Section RouteFacts.

Import Route SearchInv.

(** C7. A search whose target is the current location runs the loop body
    no time: it answers distance 0 and the location stays. *)
Theorem findRoute_same_node (fuel : nat) (newGraph : list edgeWeight) (X : ascii) :
  is_node X -> findRoute fuel newGraph X X = Done (X, 0).
Proof.
  intros HX. destruct (idx_spec X HX) as [EX Hle].
  unfold findRoute. rewrite EX.
  assert (E : get (upd (idx X) 0 initializeNodeWeight) (idx X) = 0)
    by (apply get_upd_eq; cbn; lia).
  destruct fuel; cbn [findRoute_loop]; rewrite Ascii.eqb_refl, E; reflexivity.
Qed.

Lemma findRoute_same_node_witness :
  is_node "F" /\ findRoute 0 [] "F" "F" = Done ("F", 0).
Proof.
  assert (HF : is_node "F") by (unfold is_node, nodeAlphabet; cbn; auto 10).
  split; [exact HF | exact (findRoute_same_node 0 [] "F" HF)].
Defined.

(** ** Paths *)

Lemma path_nonneg g x y d :
  Forall (fun e => 0 <= weight e) g -> path g x y d -> 0 <= d.
Proof.
  intros Hg. rewrite Forall_forall in Hg.
  induction 1 as [x | e y d He Hp IH]; [lia |].
  specialize (Hg e He). cbn in Hg. lia.
Qed.

Lemma path_snoc g x y d e :
  path g x y d -> In e g -> initial e = y ->
  path g x (terminal e) (d + weight e).
Proof.
  intros Hp He Hy.
  induction Hp as [x | e' y d He' Hp IH].
  - subst x. replace (0 + weight e) with (weight e + 0) by lia.
    apply path_cons; [exact He | apply path_nil].
  - replace (weight e' + d + weight e) with (weight e' + (d + weight e)) by lia.
    apply path_cons; [exact He' | apply IH; exact Hy].
Qed.

Lemma path_end_node g x y d :
  Forall (fun e => is_node (initial e) /\ is_node (terminal e)) g ->
  path g x y d -> is_node x -> is_node y.
Proof.
  intros Hg. rewrite Forall_forall in Hg.
  induction 1 as [x | e y d He Hp IH]; intros Hx; [exact Hx |].
  apply IH. apply (Hg e He).
Qed.

(** A path that starts inside a set of nodes and ends outside of it has
    an entry that leaves the set. *)
Lemma path_crossing g (S : list ascii) x y d :
  path g x y d -> In x S -> ~ In y S ->
  exists e d1 d2,
    In e g /\ In (initial e) S /\ ~ In (terminal e) S /\
    path g x (initial e) d1 /\ path g (terminal e) y d2 /\
    d = d1 + weight e + d2.
Proof.
  induction 1 as [x | e y d He Hp IH]; intros Hx Hy; [contradiction |].
  destruct (in_dec ascii_dec (terminal e) S) as [Hin | Hout].
  - destruct (IH Hin Hy) as (e' & d1 & d2 & He' & Hi & Ht & Hp1 & Hp2 & ->).
    exists e', (weight e + d1), d2.
    repeat split; auto; try lia. apply path_cons; assumption.
  - exists e, 0, d. repeat split; auto; try lia. apply path_nil.
Qed.

(** ** The pruned working copy *)

Lemma mem_In c V : mem c V = true <-> In c V.
Proof.
  unfold mem. rewrite existsb_exists. split.
  - intros (x & Hx & E). apply Ascii.eqb_eq in E. now subst.
  - intros Hc. exists c. split; [exact Hc | apply Ascii.eqb_refl].
Qed.

Lemma mem_not_In c V : mem c V = false <-> ~ In c V.
Proof.
  rewrite <- mem_In. destruct (mem c V); split; congruence.
Qed.

Lemma Z_not_node : ~ is_node "Z".
Proof.
  unfold is_node, nodeAlphabet. cbn.
  intros [H | [H | [H | [H | [H | [H | [H | []]]]]]]]; discriminate.
Qed.

Lemma removeVertex_prune V g c :
  is_node c -> removeVertex (prune V g) c = prune (c :: V) g.
Proof.
  intros Hc. unfold removeVertex, prune. rewrite map_map.
  apply map_ext. intros e. unfold mem. cbn [existsb].
  fold (mem (terminal e) V).
  destruct (mem (terminal e) V); cbn [terminal].
  - rewrite orb_true_r.
    destruct (Ascii.eqb_spec "Z" c) as [<- | _]; [| reflexivity].
    destruct (Z_not_node Hc).
  - rewrite orb_false_r. reflexivity.
Qed.

Lemma In_prune V g e :
  In e (prune V g) ->
  (In e g /\ ~ In (terminal e) V) \/ (initial e = "Z" /\ terminal e = "Z").
Proof.
  unfold prune. rewrite in_map_iff. intros (e0 & <- & He0).
  destruct (mem (terminal e0) V) eqn:E.
  - right. split; reflexivity.
  - left. split; [exact He0 | now apply mem_not_In].
Qed.

Lemma prune_In V g e :
  In e g -> ~ In (terminal e) V -> In e (prune V g).
Proof.
  intros He Ht. unfold prune. apply in_map_iff. exists e.
  apply mem_not_In in Ht. rewrite Ht. auto.
Qed.

Lemma prune_weight V g e :
  In e (prune V g) -> exists e0, In e0 g /\ weight e = weight e0.
Proof.
  unfold prune. rewrite in_map_iff. intros (e0 & <- & He0).
  exists e0. split; [exact He0 |]. now destruct (mem (terminal e0) V).
Qed.

(** ** The weight that is left outside the removed vertices *)

Section Rest.

Variable V : list ascii.

Lemma rest_step e g :
  rest V (e :: g) = (if mem (terminal e) V then 0 else weight e) + rest V g.
Proof.
  unfold rest, total_weight. cbn [filter].
  now destruct (mem (terminal e) V).
Qed.

Lemma rest_nil : rest V [] = 0.
Proof. reflexivity. Qed.

Lemma rest_nonneg g :
  Forall (fun e => 0 <= weight e) g -> 0 <= rest V g.
Proof.
  induction 1 as [| e g He Hg IH]; [rewrite rest_nil; lia |].
  rewrite rest_step. destruct (mem (terminal e) V); lia.
Qed.

Lemma rest_le_total g :
  Forall (fun e => 0 <= weight e) g -> rest V g <= total_weight g.
Proof.
  induction 1 as [| e g He Hg IH]; [rewrite rest_nil; cbn; lia |].
  rewrite rest_step. change (total_weight (e :: g)) with (weight e + total_weight g).
  destruct (mem (terminal e) V); lia.
Qed.

Lemma rest_edge g e :
  Forall (fun e => 0 <= weight e) g ->
  In e g -> ~ In (terminal e) V -> weight e <= rest V g.
Proof.
  intros Hg He Ht. apply mem_not_In in Ht.
  induction Hg as [| e' g He' Hg IH]; [destruct He |].
  pose proof (rest_nonneg g Hg) as Hr. rewrite rest_step.
  destruct He as [-> | He].
  - rewrite Ht. lia.
  - specialize (IH He). destruct (mem (terminal e') V); lia.
Qed.

End Rest.

Lemma mem_cons x c V : mem x (c :: V) = Ascii.eqb x c || mem x V.
Proof. reflexivity. Qed.

Lemma rest_cons_le c V g :
  Forall (fun e => 0 <= weight e) g -> rest (c :: V) g <= rest V g.
Proof.
  induction 1 as [| e g He Hg IH]; [rewrite !rest_nil; lia |].
  rewrite !rest_step, mem_cons.
  destruct (Ascii.eqb (terminal e) c), (mem (terminal e) V); cbn [orb]; lia.
Qed.

Lemma rest_cons_edge c V g e :
  Forall (fun e => 0 <= weight e) g ->
  In e g -> terminal e = c -> ~ In c V ->
  rest (c :: V) g + weight e <= rest V g.
Proof.
  intros Hg He Ht Hc. apply mem_not_In in Hc.
  induction Hg as [| e' g He' Hg IH]; [destruct He |].
  pose proof (rest_cons_le c V g Hg) as Hr.
  rewrite !rest_step, mem_cons.
  destruct He as [-> | He].
  - rewrite Ht, Ascii.eqb_refl, Hc. cbn [orb]. lia.
  - specialize (IH He).
    destruct (Ascii.eqb (terminal e') c), (mem (terminal e') V); cbn [orb]; lia.
Qed.

(** ** One round of relaxation *)

Lemma findNeighbors_spec c k G :
  forall W,
  (forall e, In e G -> 0 <= weight e) ->
  (forall e, In e G -> initial e = c ->
             exists j, nodeToNumber (terminal e) = Some j) ->
  (6 < List.length W)%nat ->
  exists W1,
    findNeighbors G W c k = Some W1 /\
    List.length W1 = List.length W /\
    get W1 k = get W k /\
    (forall j, get W1 j <= get W j) /\
    (forall e j, In e G -> initial e = c ->
                 nodeToNumber (terminal e) = Some j ->
                 get W1 j <= weight e + get W k) /\
    (forall j, get W1 j = get W j \/
               exists e, In e G /\ initial e = c /\
                         nodeToNumber (terminal e) = Some j /\
                         get W1 j = weight e + get W k).
Proof.
  induction G as [| e G IH]; intros W Hw Hn Hlen.
  - exists W. cbn. repeat split; auto; try lia.
  - assert (Hw' : forall e', In e' G -> 0 <= weight e')
      by (intros; apply Hw; now right).
    assert (Hn' : forall e', In e' G -> initial e' = c ->
                             exists j, nodeToNumber (terminal e') = Some j)
      by (intros; apply Hn; [now right | assumption]).
    cbn [findNeighbors].
    destruct (Ascii.eqb_spec c (initial e)) as [Ec | Ec].
    + destruct (Hn e (or_introl eq_refl) (eq_sym Ec)) as [j Ej]. rewrite Ej.
      pose proof (Hw e (or_introl eq_refl)) as Hwe.
      assert (Hj : (j <= 6)%nat) by (apply nodeToNumber_inv in Ej; tauto).
      destruct (Z.ltb_spec (weight e + get W k) (get W j)) as [Hlt | Hge].
      * assert (Hjk : j <> k) by (intros ->; lia).
        destruct (IH (upd j (weight e + get W k) W) Hw' Hn')
          as (W1 & E1 & L1 & K1 & Le1 & Ed1 & At1);
          [rewrite length_upd; exact Hlen |].
        rewrite length_upd in L1. rewrite get_upd_ne in K1, Ed1, At1 by exact Hjk.
        exists W1. split; [exact E1 |]. split; [exact L1 |].
        split; [exact K1 |]. split; [| split].
        -- intros j'. specialize (Le1 j').
           destruct (Nat.eq_dec j j') as [<- | Hne].
           ++ rewrite get_upd_eq in Le1 by lia. lia.
           ++ rewrite get_upd_ne in Le1 by exact Hne. exact Le1.
        -- intros e' j' [<- | He'] Hi Hj'.
           ++ assert (j' = j) by congruence. subst j'.
              specialize (Le1 j). rewrite get_upd_eq in Le1 by lia. exact Le1.
           ++ now apply Ed1.
        -- intros j'. destruct (At1 j') as [E | (e' & He' & Hi & Hj' & E)].
           ++ destruct (Nat.eq_dec j j') as [<- | Hne].
              ** rewrite get_upd_eq in E by lia. right.
                 exists e. repeat split; auto. now left.
              ** rewrite get_upd_ne in E by exact Hne. now left.
           ++ right. exists e'. repeat split; auto. now right.
      * destruct (IH W Hw' Hn' Hlen) as (W1 & E1 & L1 & K1 & Le1 & Ed1 & At1).
        exists W1. repeat split; auto.
        -- intros e' j' [<- | He'] Hi Hj'.
           ++ assert (j' = j) by congruence. subst j'.
              specialize (Le1 j). lia.
           ++ now apply Ed1.
        -- intros j'. destruct (At1 j') as [E | (e' & He' & Hi & Hj' & E)].
           ++ now left.
           ++ right. exists e'. repeat split; auto. now right.
    + destruct (IH W Hw' Hn' Hlen) as (W1 & E1 & L1 & K1 & Le1 & Ed1 & At1).
      exists W1. repeat split; auto.
      * intros e' j' [<- | He'] Hi Hj'; [congruence | now apply Ed1].
      * intros j'. destruct (At1 j') as [E | (e' & He' & Hi & Hj' & E)].
        -- now left.
        -- right. exists e'. repeat split; auto. now right.
Qed.

(** ** Choosing the next node *)

Lemma findLeast_fold W n :
  forall s base node,
  let r := fold_left (findLeast_step W) (seq s n) (base, node) in
  fst r <= base /\
  (forall j, (s <= j < s + n)%nat -> get W j <> 0 -> fst r <= get W j) /\
  (r = (base, node) \/
   exists i, (s <= i < s + n)%nat /\ snd r = Some i /\
             get W i = fst r /\ fst r <> 0 /\ fst r < base).
Proof.
  induction n as [| n IH]; intros s base node; cbn [seq fold_left].
  - split; [cbn; lia |]. split; [intros j Hj; lia | now left].
  - assert (Hstep : findLeast_step W (base, node) s =
                    if negb (get W s =? 0) && (get W s <? base)
                    then (get W s, Some s) else (base, node)) by reflexivity.
    rewrite Hstep.
    destruct (Z.eqb_spec (get W s) 0) as [E0 | E0]; cbn [negb andb].
    + destruct (IH (S s) base node) as (Hle & Hmin & Hres).
      split; [exact Hle |]. split.
      * intros j Hj Hnz. destruct (Nat.eq_dec j s) as [-> | Hne];
          [contradiction | apply Hmin; [lia | exact Hnz]].
      * destruct Hres as [Hres | (i & Hi & Hres)]; [now left |].
        right. exists i. split; [lia | exact Hres].
    + destruct (Z.ltb_spec (get W s) base) as [Hlt | Hge].
      * destruct (IH (S s) (get W s) (Some s)) as (Hle & Hmin & Hres).
        split; [lia |]. split.
        -- intros j Hj Hnz. destruct (Nat.eq_dec j s) as [-> | Hne];
             [exact Hle | apply Hmin; [lia | exact Hnz]].
        -- right. destruct Hres as [Hres | (i & Hi & Es & Eg & Hnz & Hlt')].
           ++ exists s. rewrite Hres. cbn. repeat split; auto; lia.
           ++ exists i. repeat split; auto; lia.
      * destruct (IH (S s) base node) as (Hle & Hmin & Hres).
        split; [exact Hle |]. split.
        -- intros j Hj Hnz. destruct (Nat.eq_dec j s) as [-> | Hne];
             [lia | apply Hmin; [lia | exact Hnz]].
        -- destruct Hres as [Hres | (i & Hi & Hres)]; [now left |].
           right. exists i. split; [lia | exact Hres].
Qed.

Lemma findLeast_some W :
  (forall j, (6 < j)%nat -> (j < VERTEX_COUNT / 2)%nat ->
             get W j = INFINITY_APPROX) ->
  (exists j, (j < VERTEX_COUNT / 2)%nat /\ get W j <> 0 /\
             get W j < INFINITY_APPROX) ->
  exists c,
    findLeast W = Some c /\ is_node c /\
    wt W c <> 0 /\ wt W c < INFINITY_APPROX /\
    forall j, (j < VERTEX_COUNT / 2)%nat -> get W j <> 0 -> wt W c <= get W j.
Proof.
  intros Hspare (j0 & Hj0 & Hnz0 & Hlt0).
  unfold findLeast.
  destruct (findLeast_fold W (VERTEX_COUNT / 2) 0 42 None) as (Hle & Hmin & Hres).
  cbv zeta in Hle, Hmin, Hres.
  set (r := fold_left (findLeast_step W) (seq 0 (VERTEX_COUNT / 2)) (42, None)) in *.
  unfold INFINITY_APPROX in *.
  destruct Hres as [Hres | (i & Hi & Es & Eg & Hnz & Hlt)].
  - specialize (Hmin j0 ltac:(lia) Hnz0). rewrite Hres in Hmin. cbn in Hmin. lia.
  - rewrite Es.
    assert (Hi6 : (i <= 6)%nat).
    { destruct (Nat.le_gt_cases i 6) as [H | H]; [exact H |].
      specialize (Hspare i H ltac:(lia)). lia. }
    destruct (number_node i Hi6) as (c & Ec & Hc & En).
    exists c. split; [exact Ec |]. split; [exact Hc |].
    unfold wt. rewrite (nodeToNumber_idx c i En), Eg.
    repeat split; auto. intros j Hj Hnzj. apply Hmin; [lia | exact Hnzj].
Qed.

Lemma candidate_dec W :
  (exists j, (j < VERTEX_COUNT / 2)%nat /\ get W j <> 0 /\
             get W j < INFINITY_APPROX) \/
  (forall j, (j < VERTEX_COUNT / 2)%nat ->
             get W j = 0 \/ INFINITY_APPROX <= get W j).
Proof.
  destruct (findLeast_fold W (VERTEX_COUNT / 2) 0 42 None) as (_ & Hmin & Hres).
  cbv zeta in Hmin, Hres. unfold INFINITY_APPROX.
  destruct Hres as [Hres | (i & Hi & _ & Eg & Hnz & Hlt)].
  - right. intros j Hj. rewrite Hres in Hmin. cbn [fst] in Hmin.
    destruct (Z.eq_dec (get W j) 0) as [E | E]; [now left | right].
    apply Hmin; [lia | exact E].
  - left. exists i. split; [lia |]. rewrite Eg. auto.
Qed.

Lemma findLeast_none W :
  (forall j, (j < VERTEX_COUNT / 2)%nat ->
             get W j = 0 \/ INFINITY_APPROX <= get W j) ->
  findLeast W = None.
Proof.
  intros Hall. unfold findLeast.
  destruct (findLeast_fold W (VERTEX_COUNT / 2) 0 42 None) as (_ & _ & Hres).
  cbv zeta in Hres.
  destruct Hres as [-> | (i & Hi & Es & Eg & Hnz & Hlt)]; [reflexivity |].
  destruct (Hall i ltac:(lia)) as [H | H]; unfold INFINITY_APPROX in *; lia.
Qed.

(** ** The invariant is kept by the loop body *)

Lemma prune_nil g : prune [] g = g.
Proof.
  unfold prune. cbn. induction g as [| e g IH]; cbn; [reflexivity |].
  now rewrite IH.
Qed.

Lemma number_is_idx t u :
  is_node u -> nodeToNumber t = Some (idx u) -> t = u.
Proof.
  intros Hu Ht. destruct (idx_spec u Hu) as [Eu _].
  apply nodeToNumber_inv in Ht, Eu.
  destruct Ht as (_ & Ht & _). destruct Eu as (_ & Eu & _). congruence.
Qed.

Section Search.

Variable g : list edgeWeight.
Variables src dst : ascii.

Hypothesis Hnodes :
  Forall (fun e => is_node (initial e) /\ is_node (terminal e)) g.
Hypothesis Hpos : Forall (fun e => 0 < weight e) g.
Hypothesis Hsum : total_weight g < INFINITY_APPROX.
Hypothesis Hsrc : is_node src.

Lemma weights_nonneg : Forall (fun e => 0 <= weight e) g.
Proof. eapply Forall_impl; [| exact Hpos]. cbn. intros; lia. Qed.

Lemma edge_nodes e : In e g -> is_node (initial e) /\ is_node (terminal e).
Proof. intros He. rewrite Forall_forall in Hnodes. now apply Hnodes. Qed.

Lemma edge_pos e : In e g -> 0 < weight e.
Proof. intros He. rewrite Forall_forall in Hpos. now apply Hpos. Qed.

Section Step.

Variable V : list ascii.
Variable D : ascii -> Z.
Variable G : list edgeWeight.
Variable W : list Z.
Variable c : ascii.

Hypothesis Hinv : search_inv g src dst V D G W c.
Hypothesis Hne : c <> dst.

Lemma current_node : is_node c.
Proof. apply (inv_settled _ _ _ _ _ _ _ _ Hinv c). now left. Qed.

Lemma settled_nonneg v : In v (c :: V) -> 0 <= D v.
Proof.
  intros Hv. destruct (inv_settled _ _ _ _ _ _ _ _ Hinv v Hv) as (_ & [Hp _] & _).
  exact (path_nonneg _ _ _ _ weights_nonneg Hp).
Qed.

Lemma step_relax :
  exists W1,
    findNeighbors G W c (idx c) = Some W1 /\
    List.length W1 = List.length W /\
    (forall j, get W1 j <= get W j) /\
    (forall e j, In e G -> initial e = c ->
                 nodeToNumber (terminal e) = Some j ->
                 get W1 j <= weight e + D c) /\
    (forall j, get W1 j = get W j \/
               exists e, In e G /\ initial e = c /\
                         nodeToNumber (terminal e) = Some j /\
                         get W1 j = weight e + D c).
Proof.
  pose proof (inv_graph _ _ _ _ _ _ _ _ Hinv) as EG.
  pose proof (inv_length _ _ _ _ _ _ _ _ Hinv) as EL.
  pose proof (inv_current _ _ _ _ _ _ _ _ Hinv) as EC. unfold wt in EC.
  destruct (findNeighbors_spec c (idx c) G W) as (W1 & E1 & L1 & _ & Le1 & Ed1 & At1).
  - intros e He. rewrite EG in He. apply prune_weight in He.
    destruct He as (e0 & He0 & ->). pose proof (edge_pos e0 He0). lia.
  - intros e He Hi. rewrite EG in He.
    destruct (In_prune _ _ _ He) as [[He0 _] | [HZ _]].
    + destruct (is_node_number _ (proj2 (edge_nodes e He0))) as (j & Ej & _).
      now exists j.
    + destruct Z_not_node. rewrite <- HZ, Hi. exact current_node.
  - rewrite EL. cbn. lia.
  - rewrite EC in Ed1, At1. exists W1. repeat split; assumption.
Qed.

Variable W1 : list Z.

Hypothesis Hlen1 : List.length W1 = List.length W.
Hypothesis Hle1 : forall j, get W1 j <= get W j.
Hypothesis Hedge1 :
  forall e j, In e G -> initial e = c ->
              nodeToNumber (terminal e) = Some j ->
              get W1 j <= weight e + D c.
Hypothesis Hatt1 :
  forall j, get W1 j = get W j \/
            exists e, In e G /\ initial e = c /\
                      nodeToNumber (terminal e) = Some j /\
                      get W1 j = weight e + D c.

Let W2 := upd (idx c) 0 W1.

Lemma relaxed_edge e :
  In e G -> initial e = c -> In e g /\ ~ In (terminal e) V.
Proof.
  intros He Hi. rewrite (inv_graph _ _ _ _ _ _ _ _ Hinv) in He.
  destruct (In_prune _ _ _ He) as [H | [HZ _]]; [exact H |].
  destruct Z_not_node. rewrite <- HZ, Hi. exact current_node.
Qed.

Lemma step_other u :
  is_node u -> u <> c -> wt W2 u = get W1 (idx u).
Proof.
  intros Hu Huc. unfold wt, W2. apply get_upd_ne.
  intros E. apply Huc. symmetry. apply idx_inj; auto. exact current_node.
Qed.

Lemma step_visited v : In v (c :: V) -> wt W2 v = 0.
Proof.
  intros [<- | Hv].
  - unfold wt, W2. apply get_upd_eq.
    rewrite Hlen1, (inv_length _ _ _ _ _ _ _ _ Hinv).
    destruct (idx_spec c current_node) as [_ H]. cbn. lia.
  - assert (Hvn : is_node v)
      by (apply (inv_settled _ _ _ _ _ _ _ _ Hinv v); now right).
    assert (Hvc : v <> c).
    { intros ->. pose proof (inv_nodup _ _ _ _ _ _ _ _ Hinv) as ND.
      inversion ND; contradiction. }
    rewrite (step_other v Hvn Hvc).
    destruct (Hatt1 (idx v)) as [E | (e & He & Hi & Hj & _)].
    + rewrite E. exact (inv_visited _ _ _ _ _ _ _ _ Hinv v Hv).
    + destruct (relaxed_edge e He Hi) as [_ Hout].
      rewrite (number_is_idx _ _ Hvn Hj) in Hout. contradiction.
Qed.

Lemma step_spare j :
  (6 < j)%nat -> (j < VERTEX_COUNT / 2)%nat -> get W2 j = INFINITY_APPROX.
Proof.
  intros H6 H9. unfold W2. rewrite get_upd_ne.
  - destruct (Hatt1 j) as [E | (e & _ & _ & Hj & _)].
    + rewrite E. exact (inv_spare _ _ _ _ _ _ _ _ Hinv j H6 H9).
    + apply nodeToNumber_inv in Hj. lia.
  - destruct (idx_spec c current_node) as [_ H]. lia.
Qed.

Lemma step_attained u :
  is_node u -> ~ In u (c :: V) ->
  wt W2 u = INFINITY_APPROX \/
  exists e, In e g /\ In (initial e) (c :: V) /\ terminal e = u /\
            wt W2 u = D (initial e) + weight e.
Proof.
  intros Hu Hout.
  rewrite (step_other u Hu) by (intros ->; apply Hout; now left).
  destruct (Hatt1 (idx u)) as [E | (e & He & Hi & Hj & E)].
  - rewrite E.
    destruct (inv_attained _ _ _ _ _ _ _ _ Hinv u Hu Hout)
      as [H | (e & He & Hi & Ht & H)]; [now left |].
    right. exists e. repeat split; auto. now right.
  - right. exists e. destruct (relaxed_edge e He Hi) as [He0 _].
    split; [exact He0 |]. split; [rewrite Hi; now left |].
    split; [exact (number_is_idx _ _ Hu Hj) |]. rewrite E, Hi. lia.
Qed.

Lemma step_bound u :
  is_node u -> ~ In u (c :: V) ->
  wt W2 u <= INFINITY_APPROX /\
  forall e, In e g -> In (initial e) (c :: V) -> terminal e = u ->
            wt W2 u <= D (initial e) + weight e.
Proof.
  intros Hu Hout.
  rewrite (step_other u Hu) by (intros ->; apply Hout; now left).
  destruct (inv_bound _ _ _ _ _ _ _ _ Hinv u Hu Hout) as [Hinf Hold].
  pose proof (Hle1 (idx u)) as Hle. fold (wt W u) in Hle.
  split; [lia |]. intros e He [Hi | Hi] Ht.
  - rewrite <- Hi.
    assert (HeG : In e G).
    { rewrite (inv_graph _ _ _ _ _ _ _ _ Hinv). apply prune_In; [exact He |].
      rewrite Ht. intros HV. apply Hout. now right. }
    pose proof (Hedge1 e (idx u) HeG (eq_sym Hi)) as H.
    rewrite Ht in H. specialize (H (proj1 (idx_spec u Hu))). lia.
  - specialize (Hold e He Hi Ht). lia.
Qed.

Lemma step_positive u :
  is_node u -> ~ In u (c :: V) -> 0 < wt W2 u.
Proof.
  intros Hu Hout.
  destruct (step_attained u Hu Hout) as [E | (e & He & Hi & _ & E)].
  - rewrite E. unfold INFINITY_APPROX. lia.
  - rewrite E. pose proof (settled_nonneg _ Hi). pose proof (edge_pos e He). lia.
Qed.

Lemma dst_outside : ~ In dst (c :: V).
Proof.
  intros [E | H]; [now apply Hne |].
  exact (inv_dst _ _ _ _ _ _ _ _ Hinv H).
Qed.

(** Some node outside the removed ones is below the sentinel: the target
    can be reached, so an entry leaves the removed nodes towards it. *)
Lemma step_candidate :
  (exists d, path g src dst d) ->
  exists j, (j < VERTEX_COUNT / 2)%nat /\ get W2 j <> 0 /\
            get W2 j < INFINITY_APPROX.
Proof.
  intros [d0 Hp].
  destruct (path_crossing g (c :: V) src dst d0 Hp
              (inv_src _ _ _ _ _ _ _ _ Hinv) dst_outside)
    as (e & d1 & d2 & He & Hi & Ht & _ & _ & _).
  pose proof (proj2 (edge_nodes e He)) as Hy.
  exists (idx (terminal e)).
  destruct (idx_spec _ Hy) as [_ H6].
  pose proof (step_positive _ Hy Ht) as Hp0.
  destruct (step_bound _ Hy Ht) as [_ Hb].
  specialize (Hb e He Hi eq_refl).
  destruct (inv_settled _ _ _ _ _ _ _ _ Hinv _ Hi) as (_ & _ & Hr).
  pose proof (rest_edge (c :: V) g e weights_nonneg He Ht).
  fold (wt W2 (terminal e)).
  split; [cbn; lia |]. split; lia.
Qed.

Lemma step_least :
  (exists j, (j < VERTEX_COUNT / 2)%nat /\ get W2 j <> 0 /\
             get W2 j < INFINITY_APPROX) ->
  exists c',
    findLeast W2 = Some c' /\ is_node c' /\ ~ In c' (c :: V) /\
    wt W2 c' < INFINITY_APPROX /\
    forall u, is_node u -> ~ In u (c :: V) -> wt W2 c' <= wt W2 u.
Proof.
  intros Hcand.
  destruct (findLeast_some W2 step_spare Hcand)
    as (c' & E & Hc' & Hnz & Hlt & Hmin).
  exists c'. split; [exact E |]. split; [exact Hc' |].
  split; [| split; [exact Hlt |]].
  - intros Hin. apply Hnz. now apply step_visited.
  - intros u Hu Hout. apply Hmin.
    + destruct (idx_spec u Hu) as [_ H6]. cbn. lia.
    + pose proof (step_positive u Hu Hout) as H. unfold wt in H. lia.
Qed.

Section Next.

Variable c' : ascii.

Hypothesis Hnode' : is_node c'.
Hypothesis Hout' : ~ In c' (c :: V).
Hypothesis Hlt' : wt W2 c' < INFINITY_APPROX.
Hypothesis Hmin' :
  forall u, is_node u -> ~ In u (c :: V) -> wt W2 c' <= wt W2 u.

(** The node chosen next carries its distance from the source. *)
Lemma step_shortest :
  is_shortest g src c' (wt W2 c') /\
  wt W2 c' + rest (c' :: c :: V) g <= total_weight g.
Proof.
  destruct (step_attained c' Hnode' Hout') as [E | (e & He & Hi & Ht & E)];
    [lia |].
  destruct (inv_settled _ _ _ _ _ _ _ _ Hinv _ Hi) as (_ & [Hp Hsh] & Hr).
  split; [split |].
  - rewrite E, <- Ht. apply (path_snoc g src (initial e)); auto.
  - intros d' Hp'.
    destruct (path_crossing g (c :: V) src c' d' Hp'
                (inv_src _ _ _ _ _ _ _ _ Hinv) Hout')
      as (e2 & d1 & d2 & He2 & Hi2 & Ht2 & Hp1 & Hp2 & ->).
    pose proof (proj2 (edge_nodes e2 He2)) as Hy.
    destruct (inv_settled _ _ _ _ _ _ _ _ Hinv _ Hi2) as (_ & [_ Hsh2] & _).
    specialize (Hsh2 d1 Hp1).
    pose proof (path_nonneg _ _ _ _ weights_nonneg Hp2).
    destruct (step_bound _ Hy Ht2) as [_ Hb].
    specialize (Hb e2 He2 Hi2 eq_refl).
    specialize (Hmin' _ Hy Ht2). lia.
  - pose proof (rest_cons_edge c' (c :: V) g e weights_nonneg He Ht Hout').
    lia.
Qed.

Let D' : ascii -> Z := fun x => if Ascii.eqb x c' then wt W2 c' else D x.

Lemma next_old v : In v (c :: V) -> D' v = D v.
Proof.
  intros Hv. unfold D'.
  destruct (Ascii.eqb_spec v c') as [-> | _]; [contradiction | reflexivity].
Qed.

Lemma step_inv :
  search_inv g src dst (c :: V) D' (removeVertex G c) W2 c'.
Proof.
  constructor.
  - constructor; [exact Hout' | exact (inv_nodup _ _ _ _ _ _ _ _ Hinv)].
  - right. exact (inv_src _ _ _ _ _ _ _ _ Hinv).
  - exact dst_outside.
  - rewrite (inv_graph _ _ _ _ _ _ _ _ Hinv).
    apply removeVertex_prune. exact current_node.
  - unfold W2. rewrite length_upd, Hlen1.
    exact (inv_length _ _ _ _ _ _ _ _ Hinv).
  - exact step_spare.
  - exact step_visited.
  - unfold D'. now rewrite Ascii.eqb_refl.
  - intros v [<- | Hv].
    + split; [exact Hnode' |].
      unfold D'. rewrite Ascii.eqb_refl. exact step_shortest.
    + rewrite (next_old v Hv).
      destruct (inv_settled _ _ _ _ _ _ _ _ Hinv v Hv) as (Hn & Hs & Hr).
      split; [exact Hn |]. split; [exact Hs |].
      pose proof (rest_cons_le c' (c :: V) g weights_nonneg). lia.
  - intros u Hu Hout.
    assert (Hout0 : ~ In u (c :: V)) by (intros H; apply Hout; now right).
    destruct (step_attained u Hu Hout0) as [E | (e & He & Hi & Ht & E)];
      [now left |].
    right. exists e. rewrite (next_old _ Hi). auto.
  - intros u Hu Hout.
    assert (Hout0 : ~ In u (c :: V)) by (intros H; apply Hout; now right).
    destruct (step_bound u Hu Hout0) as [Hinf Hb].
    split; [exact Hinf |]. intros e He Hi Ht.
    rewrite (next_old _ Hi). now apply Hb.
Qed.

End Next.

End Step.

(** The body of the loop, from a state that satisfies the invariant: the
    relaxation is defined; then either no entry of [nodeWeight] is a
    candidate and [findLeast] reads its local [node] unassigned, or the
    next node is chosen and the invariant holds again. *)
Lemma inv_step_general V D G W c :
  search_inv g src dst V D G W c -> c <> dst ->
  exists W1,
    findNeighbors G W c (idx c) = Some W1 /\
    ((findLeast (upd (idx c) 0 W1) = None /\
      forall j, (j < VERTEX_COUNT / 2)%nat ->
                get (upd (idx c) 0 W1) j = 0 \/
                INFINITY_APPROX <= get (upd (idx c) 0 W1) j) \/
     exists c' D',
       findLeast (upd (idx c) 0 W1) = Some c' /\
       is_node c' /\
       search_inv g src dst (c :: V) D' (removeVertex G c)
                  (upd (idx c) 0 W1) c').
Proof.
  intros Hinv Hne.
  destruct (step_relax V D G W c Hinv) as (W1 & E1 & L1 & Le1 & Ed1 & At1).
  exists W1. split; [exact E1 |].
  destruct (candidate_dec (upd (idx c) 0 W1)) as [Hcand | Hnone].
  - right.
    destruct (step_least V D G W c Hinv W1 L1 At1 Hcand)
      as (c' & E2 & Hc' & Hout' & Hlt' & Hmin').
    exists c'. eexists. split; [exact E2 |]. split; [exact Hc' |].
    exact (step_inv V D G W c Hinv Hne W1 L1 Le1 Ed1 At1 c' Hc' Hout' Hlt' Hmin').
  - left. split; [now apply findLeast_none | exact Hnone].
Qed.

Lemma inv_step V D G W c :
  (exists d, path g src dst d) ->
  search_inv g src dst V D G W c -> c <> dst ->
  exists W1 c' D',
    findNeighbors G W c (idx c) = Some W1 /\
    findLeast (upd (idx c) 0 W1) = Some c' /\
    is_node c' /\
    search_inv g src dst (c :: V) D' (removeVertex G c)
               (upd (idx c) 0 W1) c'.
Proof.
  intros Hreach Hinv Hne.
  destruct (inv_step_general V D G W c Hinv Hne)
    as (W1 & E1 & [[_ Hnone] | (c' & D' & E2 & Hc' & Hinv')]).
  - destruct (step_relax V D G W c Hinv) as (W1' & E1' & L1 & Le1 & Ed1 & At1).
    assert (W1' = W1) by congruence. subst W1'.
    destruct (step_candidate V D G W c Hinv Hne W1 L1 Le1 Ed1 At1 Hreach)
      as (j & Hj & Hnz & Hlt).
    destruct (Hnone j Hj); lia.
  - exists W1, c', D'. auto.
Qed.

Lemma get_initial j :
  (j < VERTEX_COUNT / 2)%nat -> get initializeNodeWeight j = INFINITY_APPROX.
Proof.
  intros Hj. do 9 (destruct j as [| j]; [reflexivity |]). cbn in Hj. lia.
Qed.

Lemma inv_init :
  search_inv g src dst [] (fun _ => 0) g
             (upd (idx src) 0 initializeNodeWeight) src.
Proof.
  destruct (idx_spec src Hsrc) as [_ H6].
  assert (Hother : forall u, is_node u -> ~ In u [src] ->
                   wt (upd (idx src) 0 initializeNodeWeight) u = INFINITY_APPROX).
  { intros u Hu Hout. unfold wt. rewrite get_upd_ne.
    - destruct (idx_spec u Hu) as [_ Hu6]. apply get_initial. cbn. lia.
    - intros E. apply Hout. left. now apply idx_inj. }
  constructor.
  - constructor; [intros [] | constructor].
  - now left.
  - intros [].
  - symmetry. apply prune_nil.
  - now rewrite length_upd.
  - intros j Hj6 Hj9. rewrite get_upd_ne by lia. now apply get_initial.
  - intros v [].
  - unfold wt. apply get_upd_eq. cbn. lia.
  - intros v [<- | []]. split; [exact Hsrc |]. split; [split |].
    + apply path_nil.
    + intros d'. apply path_nonneg. exact weights_nonneg.
    + pose proof (rest_le_total [src] g weights_nonneg). lia.
  - intros u Hu Hout. left. now apply Hother.
  - intros u Hu Hout. split; [rewrite Hother by assumption; lia |].
    intros e _ [].
Qed.

Lemma visited_bound V D G W c :
  search_inv g src dst V D G W c -> (List.length V <= 6)%nat.
Proof.
  intros Hinv.
  assert (H : (List.length (c :: V) <= List.length nodeAlphabet)%nat).
  { apply NoDup_incl_length; [exact (inv_nodup _ _ _ _ _ _ _ _ Hinv) |].
    intros v Hv. apply (inv_settled _ _ _ _ _ _ _ _ Hinv v Hv). }
  cbn in H. lia.
Qed.

(** Each round removes one more node, so six rounds are enough. *)
Lemma loop_correct fuel :
  (exists d, path g src dst d) ->
  forall V D G W c,
  search_inv g src dst V D G W c ->
  (6 <= fuel + List.length V)%nat ->
  exists d,
    findRoute_loop fuel G W c dst (idx c) = Done (dst, d) /\
    is_shortest g src dst d.
Proof.
  intros Hreach.
  induction fuel as [| fuel IH]; intros V D G W c Hinv Hfuel.
  - destruct (Ascii.eqb_spec c dst) as [-> | Hne].
    + exists (D dst). cbn [findRoute_loop]. rewrite Ascii.eqb_refl.
      fold (wt W dst). rewrite (inv_current _ _ _ _ _ _ _ _ Hinv).
      split; [reflexivity |].
      apply (inv_settled _ _ _ _ _ _ _ _ Hinv dst). now left.
    + destruct (inv_step V D G W c Hreach Hinv Hne)
        as (W1 & c' & D' & _ & _ & _ & Hinv').
      apply visited_bound in Hinv'. cbn in Hinv', Hfuel. lia.
  - destruct (Ascii.eqb_spec c dst) as [-> | Hne].
    + exists (D dst). cbn [findRoute_loop]. rewrite Ascii.eqb_refl.
      fold (wt W dst). rewrite (inv_current _ _ _ _ _ _ _ _ Hinv).
      split; [reflexivity |].
      apply (inv_settled _ _ _ _ _ _ _ _ Hinv dst). now left.
    + destruct (inv_step V D G W c Hreach Hinv Hne)
        as (W1 & c' & D' & E1 & E2 & Hc' & Hinv').
      destruct (IH _ _ _ _ _ Hinv') as (d & Ed & Hd); [cbn; lia |].
      exists d. split; [| exact Hd].
      cbn [findRoute_loop].
      apply Ascii.eqb_neq in Hne. rewrite Hne, E1, E2.
      rewrite (proj1 (idx_spec c' Hc')). exact Ed.
Qed.

Lemma search_correct fuel :
  (exists d, path g src dst d) ->
  (6 <= fuel)%nat ->
  exists d,
    findRoute fuel g src dst = Done (dst, d) /\ is_shortest g src dst d.
Proof.
  intros Hreach Hfuel. unfold findRoute. rewrite (proj1 (idx_spec src Hsrc)).
  apply (loop_correct fuel Hreach [] (fun _ => 0)); [exact inv_init | cbn; lia].
Qed.

(** Without a path to the target the loop runs out of candidates: after
    at most seven rounds [findLeast] returns its local [node] unassigned. *)
Lemma loop_unreachable fuel :
  ~ (exists d, path g src dst d) ->
  forall V D G W c,
  search_inv g src dst V D G W c ->
  (7 <= fuel + List.length V)%nat ->
  findRoute_loop fuel G W c dst (idx c) = Undefined.
Proof.
  intros Hno.
  induction fuel as [| fuel IH]; intros V D G W c Hinv Hfuel.
  - pose proof (visited_bound _ _ _ _ _ Hinv). cbn in Hfuel. lia.
  - assert (Hne : c <> dst).
    { intros ->. apply Hno. exists (D dst).
      apply (inv_settled _ _ _ _ _ _ _ _ Hinv dst). now left. }
    cbn [findRoute_loop]. rewrite (proj2 (Ascii.eqb_neq c dst) Hne).
    destruct (inv_step_general V D G W c Hinv Hne)
      as (W1 & E1 & [[E2 _] | (c' & D' & E2 & Hc' & Hinv')]);
      rewrite E1, E2; [reflexivity |].
    rewrite (proj1 (idx_spec c' Hc')). apply (IH _ _ _ _ _ Hinv').
    cbn. lia.
Qed.

Lemma search_unreachable fuel :
  ~ (exists d, path g src dst d) ->
  (7 <= fuel)%nat ->
  findRoute fuel g src dst = Undefined.
Proof.
  intros Hno Hfuel. unfold findRoute. rewrite (proj1 (idx_spec src Hsrc)).
  apply (loop_unreachable fuel Hno [] (fun _ => 0)); [exact inv_init | cbn; lia].
Qed.

End Search.

(** ** Fuel *)

Lemma findRoute_loop_fuel_mono fuel :
  forall fuel' G W c t k r,
  findRoute_loop fuel G W c t k = Done r -> (fuel <= fuel')%nat ->
  findRoute_loop fuel' G W c t k = Done r.
Proof.
  induction fuel as [| fuel IH]; intros fuel' G W c t k r.
  - cbn [findRoute_loop]. destruct fuel'; cbn [findRoute_loop];
      destruct (Ascii.eqb c t); congruence.
  - intros H Hle. destruct fuel' as [| fuel']; [lia |].
    cbn [findRoute_loop] in *.
    destruct (Ascii.eqb c t); [exact H |].
    destruct (findNeighbors G W c k) as [W1 |]; [| discriminate].
    destruct (findLeast (upd k 0 W1)) as [c' |]; [| discriminate].
    destruct (nodeToNumber c') as [k' |]; [| discriminate].
    apply (IH fuel'); [exact H | lia].
Qed.

Lemma findRoute_fuel_mono fuel fuel' g a b r :
  findRoute fuel g a b = Done r -> (fuel <= fuel')%nat ->
  findRoute fuel' g a b = Done r.
Proof.
  unfold findRoute. destruct (nodeToNumber a); [| discriminate].
  apply findRoute_loop_fuel_mono.
Qed.

(** ** The search on graphs with positive weights *)

Lemma valid_graph_nodes g :
  valid_graph g ->
  Forall (fun e => is_node (initial e) /\ is_node (terminal e)) g.
Proof.
  intros (_ & H & _). eapply Forall_impl; [| exact H]. cbn. tauto.
Qed.

(** In a valid graph whose weights are all positive, a search towards a
    node that can be reached arrives there and returns the least total
    weight of the directed paths to it. *)
Theorem findRoute_shortest_positive
    (fuel : nat) (newGraph : list edgeWeight) (from to : ascii) :
  valid_graph newGraph -> positive_weights newGraph ->
  is_node from -> (exists d, path newGraph from to d) ->
  (6 <= fuel)%nat ->
  exists d,
    findRoute fuel newGraph from to = Done (to, d) /\
    is_shortest newGraph from to d.
Proof.
  intros Hv Hp Hfrom Hreach Hfuel.
  apply search_correct; auto.
  - now apply valid_graph_nodes.
  - apply Hv.
Qed.

Ltac node := unfold is_node, nodeAlphabet; cbn; auto 10.
Ltac member := cbn; repeat (first [left; reflexivity | right]).
Ltac entries tac :=
  cbn; repeat (apply Forall_cons; [tac |]); apply Forall_nil.

Lemma maze_graph_valid : valid_graph Examples.maze_graph.
Proof.
  split; [reflexivity |]. split; [| reflexivity].
  entries ltac:(cbn; repeat split; [node | node | lia]).
Qed.

Lemma findRoute_shortest_positive_witness :
  valid_graph Examples.maze_graph /\
  positive_weights Examples.maze_graph /\
  is_node "E" /\
  (exists d, path Examples.maze_graph "E" "M" d) /\
  (6 <= 6)%nat /\
  exists d,
    findRoute 6 Examples.maze_graph "E" "M" = Done ("M", d) /\
    is_shortest Examples.maze_graph "E" "M" d.
Proof.
  assert (Hv : valid_graph Examples.maze_graph) by exact maze_graph_valid.
  assert (Hp : positive_weights Examples.maze_graph)
    by (unfold positive_weights; entries ltac:(cbn; lia)).
  assert (HE : is_node "E") by node.
  assert (Hr : exists d, path Examples.maze_graph "E" "M" d).
  { exists 6.
    apply (path_cons _ (mkEdge "E" "N" 2) "M" 4); [member |].
    apply (path_cons _ (mkEdge "N" "A" 1) "M" 3); [member |].
    apply (path_cons _ (mkEdge "A" "B" 1) "M" 2); [member |].
    apply (path_cons _ (mkEdge "B" "M" 2) "M" 0); [member |].
    apply path_nil. }
  assert (Hf : (6 <= 6)%nat) by lia.
  repeat (split; [assumption |]).
  exact (findRoute_shortest_positive 6 Examples.maze_graph "E" "M" Hv Hp HE Hr Hf).
Defined.

(** On the maze the search from the exit answers these distances. *)
Example findRoute_maze :
  map (findRoute 6 Examples.maze_graph "E") nodeAlphabet =
  [Done ("E", 0); Done ("N", 2); Done ("F", 3); Done ("A", 3);
   Done ("W", 5); Done ("B", 4); Done ("M", 6)].
Proof. reflexivity. Qed.

(** C1. The code misses the shortest distance on a valid graph with an
    entry of weight 0: node A is at distance 1 from the exit, through the
    nest, and the search answers 5.  The nest gets weight 0, which
    [findLeast] takes for the mark of a visited node; no search, whatever
    its fuel, returns the least weight there. *)
Lemma findRoute_zero_weight_counterexample :
  valid_graph Examples.zero_graph /\
  is_node "E" /\
  path Examples.zero_graph "E" "A" 1 /\
  findRoute 6 Examples.zero_graph "E" "A" = Done ("A", 5) /\
  ~ (exists fuel d,
       findRoute fuel Examples.zero_graph "E" "A" = Done ("A", d) /\
       is_shortest Examples.zero_graph "E" "A" d).
Proof.
  assert (Hpath : path Examples.zero_graph "E" "A" 1).
  { apply (path_cons _ (mkEdge "E" "N" 0) "A" 1); [member |].
    apply (path_cons _ (mkEdge "N" "A" 1) "A" 0); [member |].
    apply path_nil. }
  assert (Hrun : findRoute 6 Examples.zero_graph "E" "A" = Done ("A", 5))
    by reflexivity.
  split; [| split; [node | split; [exact Hpath | split; [exact Hrun |]]]].
  - split; [reflexivity |]. split; [| reflexivity].
    entries ltac:(cbn; repeat split; [node | node | lia]).
  - intros (fuel & d & E & _ & Hmin).
    specialize (Hmin 1 Hpath).
    pose proof (findRoute_fuel_mono _ (fuel + 6) _ _ _ _ E ltac:(lia)) as E1.
    pose proof (findRoute_fuel_mono _ (fuel + 6) _ _ _ _ Hrun ltac:(lia)) as E2.
    rewrite E1 in E2. injection E2 as ->. lia.
Qed.

(** The nest itself, at distance 0, is never chosen: the search for it
    ends in the undefined read. *)
Example findRoute_zero_weight_nest :
  findRoute 6 Examples.zero_graph "E" "N" = Undefined.
Proof. reflexivity. Qed.

(** ** The search towards a node that cannot be reached *)

(** C2. The source has no report for a target that cannot be reached: in
    a valid graph with positive weights the search removes the nodes it can
    reach and then [findLeast] returns the letter of a [node] that was
    never assigned. *)
Theorem findRoute_unreachable_undefined
    (fuel : nat) (newGraph : list edgeWeight) (from to : ascii) :
  valid_graph newGraph -> positive_weights newGraph ->
  is_node from -> ~ (exists d, path newGraph from to d) ->
  (7 <= fuel)%nat ->
  findRoute fuel newGraph from to = Undefined.
Proof.
  intros Hv Hp Hfrom Hno Hfuel.
  apply search_unreachable; auto.
  now apply valid_graph_nodes.
Qed.

Lemma island_graph_closed x y d :
  path Examples.island_graph x y d ->
  x = "E" \/ x = "N" -> y = "E" \/ y = "N".
Proof.
  induction 1 as [x | e y d He Hp IH]; intros Hx; [exact Hx |].
  apply IH. unfold Examples.island_graph in He.
  apply in_app_or in He. destruct He as [He | He];
    apply repeat_spec in He; subst e; cbn; auto.
Qed.

Lemma island_graph_unreachable :
  ~ (exists d, path Examples.island_graph "E" "M" d).
Proof.
  intros [d Hp].
  destruct (island_graph_closed _ _ _ Hp (or_introl eq_refl)); discriminate.
Qed.

Lemma findRoute_unreachable_undefined_witness :
  valid_graph Examples.island_graph /\
  positive_weights Examples.island_graph /\
  is_node "E" /\
  ~ (exists d, path Examples.island_graph "E" "M" d) /\
  (7 <= 7)%nat /\
  findRoute 7 Examples.island_graph "E" "M" = Undefined.
Proof.
  assert (Hv : valid_graph Examples.island_graph).
  { split; [reflexivity |]. split; [| reflexivity].
    entries ltac:(cbn; repeat split; [node | node | lia]). }
  assert (Hp : positive_weights Examples.island_graph)
    by (unfold positive_weights; entries ltac:(cbn; lia)).
  assert (HE : is_node "E") by node.
  assert (Hf : (7 <= 7)%nat) by lia.
  split; [exact Hv |]. split; [exact Hp |]. split; [exact HE |].
  split; [exact island_graph_unreachable |]. split; [exact Hf |].
  exact (findRoute_unreachable_undefined 7 Examples.island_graph "E" "M"
           Hv Hp HE island_graph_unreachable Hf).
Defined.

(** The run on the island: one round moves to the nest, the second finds
    no candidate. *)
Example findRoute_island :
  findRoute 1 Examples.island_graph "E" "M" = OutOfFuel /\
  forall fuel, findRoute (2 + fuel) Examples.island_graph "E" "M" = Undefined.
Proof. split; [reflexivity | intros fuel; reflexivity]. Qed.

End RouteFacts.

(** * Properties of the loader *)

Section LoaderFacts.

Import Loader.

Lemma load_loop_length n :
  forall s, List.length (fst (load_loop n s)) = n.
Proof.
  induction n as [| n IH]; intros s; cbn [load_loop]; [reflexivity |].
  destruct (extract_char s) as [s1 a].
  destruct (extract_char s1) as [s2 b].
  destruct (extract_int s2) as [s3 w].
  specialize (IH s3). destruct (load_loop n s3) as [entries k].
  cbn in *. now rewrite IH.
Qed.

(** The rounds that leave the stream good come first, and each of them
    fills its entry. *)
Lemma extract_char_good s s' a :
  extract_char s = (s', a) -> good s' = true ->
  good s = true /\ exists c, a = Some c.
Proof.
  unfold extract_char. destruct (good s) eqn:Es.
  - destruct (skipws (buffer s)); intros [= <- <-] H;
      [discriminate | eauto].
  - intros [= <- <-] H. congruence.
Qed.

Lemma extract_int_good s s' w :
  extract_int s = (s', w) -> good s' = true ->
  good s = true /\ exists v, w = Some v.
Proof.
  unfold extract_int. destruct (good s) eqn:Es.
  - destruct (skipws (buffer s)) as [| c rest];
      [intros [= <- <-] H; discriminate |].
    destruct (if Ascii.eqb c "-" then (true, rest)
              else if Ascii.eqb c "+" then (false, rest)
              else (false, String c rest)) as [neg b1].
    destruct (digits b1 0 false) as [[v seen] b2].
    destruct (negb seen); [intros [= <- <-] H; discriminate |].
    destruct (INT_MAX <? _); [intros [= <- <-] H; discriminate |].
    destruct (_ <? INT_MIN); intros [= <- <-] H; [discriminate | eauto].
  - intros [= <- <-] H. congruence.
Qed.

Lemma load_loop_failed n :
  forall s, good s = false -> load_loop n s = (repeat unassigned n, O).
Proof.
  induction n as [| n IH]; intros s Hs; cbn [load_loop repeat]; [reflexivity |].
  assert (Ec : extract_char s = (s, None))
    by (unfold extract_char; now rewrite Hs).
  assert (Ei : extract_int s = (s, None))
    by (unfold extract_int; now rewrite Hs).
  rewrite Ec. cbv beta iota. rewrite Ec. cbv beta iota.
  rewrite Ei. cbv beta iota. rewrite (IH s Hs). cbv beta iota.
  rewrite Hs. reflexivity.
Qed.

Lemma load_loop_prefix n :
  forall s,
  (snd (load_loop n s) <= n)%nat /\
  Forall (fun e => populated e = true)
         (firstn (snd (load_loop n s)) (fst (load_loop n s))).
Proof.
  induction n as [| n IH]; intros s; cbn [load_loop].
  - cbn. split; [lia | constructor].
  - destruct (extract_char s) as [s1 a] eqn:E1.
    destruct (extract_char s1) as [s2 b] eqn:E2.
    destruct (extract_int s2) as [s3 w] eqn:E3.
    destruct (good s3) eqn:G3.
    + destruct (extract_int_good _ _ _ E3 G3) as [G2 [v ->]].
      destruct (extract_char_good _ _ _ E2 G2) as [G1 [y ->]].
      destruct (extract_char_good _ _ _ E1 G1) as [_ [x ->]].
      destruct (IH s3) as [Hle Hall].
      destruct (load_loop n s3) as [entries k]. cbn [fst snd firstn] in *.
      split; [lia |]. constructor; [reflexivity | exact Hall].
    + rewrite (load_loop_failed n s3 G3). cbn. split; [lia | constructor].
Qed.

(** In particular the entries before [triples_read] are populated. *)
Lemma loadGraph_prefix contents :
  (triples_read contents <= VERTEX_COUNT)%nat /\
  Forall (fun e => populated e = true)
         (firstn (triples_read contents) (snd (loadGraph (Some contents)))).
Proof. apply load_loop_prefix. Qed.

(** C3, amended. [loadGraph] reports failure exactly when the file cannot
    be opened; on a file that opens it returns [true] and the
    [VERTEX_COUNT] entries of the array, whatever the number of well-formed
    triples. *)
Theorem loadGraph_fails_iff_missing (file : option string) :
  (fst (loadGraph file) = false <-> file = None) /\
  List.length (snd (loadGraph file)) = VERTEX_COUNT.
Proof.
  destruct file as [contents |]; cbn [loadGraph fst snd].
  - split; [split; discriminate | apply load_loop_length].
  - split; [split; reflexivity | apply repeat_length].
Qed.

Lemma loadGraph_fails_iff_missing_witness :
  fst (loadGraph None) = false /\
  fst (loadGraph (Some Examples.short_source)) <> false.
Proof.
  split.
  - apply (proj2 (proj1 (loadGraph_fails_iff_missing None))). reflexivity.
  - intros H.
    pose proof (proj1 (proj1 (loadGraph_fails_iff_missing
                                (Some Examples.short_source))) H).
    discriminate.
Defined.

(** C3 as stated fails on a source of seventeen triples: [loadGraph]
    returns [true], seventeen entries hold the triples and the last one was
    never assigned. *)
Lemma loadGraph_short_counterexample :
  (triples_read Examples.short_source < VERTEX_COUNT)%nat /\
  fst (loadGraph (Some Examples.short_source)) = true /\
  map populated (snd (loadGraph (Some Examples.short_source)))
  = repeat true 17 ++ [false] /\
  nth 17 (snd (loadGraph (Some Examples.short_source))) unassigned = unassigned.
Proof. repeat split. vm_compute. lia. Qed.

(** A source that is cut inside a triple leaves an entry half assigned;
    a weight that is no number is stored as 0. *)
Example loadGraph_cut :
  firstn 2 (snd (loadGraph (Some "E N 2 F"%string)))
  = [mkSlot (Some "E") (Some "N") (Some 2); mkSlot (Some "F") None None] /\
  firstn 2 (snd (loadGraph (Some "E N 2 F A"%string)))
  = [mkSlot (Some "E") (Some "N") (Some 2); mkSlot (Some "F") (Some "A") None] /\
  firstn 2 (snd (loadGraph (Some "E N x F A 1"%string)))
  = [mkSlot (Some "E") (Some "N") (Some 0); unassigned].
Proof. repeat split. Qed.

End LoaderFacts.

(** * Further properties of the finite state machine *)

Section DriveMore.

Import Drives Needs.

Lemma percent_range v m :
  0 < m -> 0 <= v <= m -> 0 <= Z.quot (100 * v) m <= 100.
Proof.
  intros Hm Hv. rewrite Z.quot_div_nonneg by lia. split.
  - apply Z.div_pos; lia.
  - apply Z.div_le_upper_bound; lia.
Qed.

Lemma percent_full v m :
  0 < m -> 0 <= v <= m -> (Z.quot (100 * v) m = 100 <-> v = m).
Proof.
  intros Hm Hv. rewrite Z.quot_div_nonneg by lia. split.
  - intros E. destruct (Z.eq_dec v m) as [-> | Hne]; [reflexivity |].
    assert (H : 100 * v / m < 100) by (apply Z.div_lt_upper_bound; lia).
    lia.
  - intros ->. apply Z.div_mul. lia.
Qed.

(** [identifyState] answers one of five letters, each of them a node. *)
Theorem identifyState_range (drives : ratState) :
  In (identifyState drives) ["M"; "F"; "N"; "W"; "E"].
Proof.
  unfold identifyState.
  generalize (setPercentage drives) as p. intros [f h u s].
  cbn [fun_ health hunger sleep fst snd].
  destruct (u <? h); cbn [fst snd];
    (destruct (s <? _); cbn [fst snd]);
    (destruct (f <? _); cbn [fst snd]);
    (destruct (50 <? _)); cbn; auto 10.
Qed.

Lemma exit_iff (drives : ratState) :
  identifyState drives = "E" <->
  forall k, 50 < value k (setPercentage drives).
Proof.
  unfold identifyState.
  generalize (setPercentage drives) as p. intros [f h u s].
  cbn [fun_ health hunger sleep fst snd].
  split.
  - intros H k.
    destruct (Z.ltb_spec u h); cbn [fst snd] in H;
      (match type of H with
       | context [s <? ?x] => destruct (Z.ltb_spec s x)
       end; cbn [fst snd] in H);
      (match type of H with
       | context [f <? ?x] => destruct (Z.ltb_spec f x)
       end; cbn [fst snd] in H);
      (match type of H with
       | context [50 <? ?x] => destruct (Z.ltb_spec 50 x)
       end; try discriminate H);
      destruct k; cbn; lia.
  - intros H.
    pose proof (H Fun) as Hf. pose proof (H Health) as Hh.
    pose proof (H Hunger) as Hu. pose proof (H Sleep) as Hs.
    cbn in Hf, Hh, Hu, Hs.
    destruct (Z.ltb_spec u h); cbn [fst snd];
      (match goal with
       | |- context [s <? ?x] => destruct (Z.ltb_spec s x)
       end; cbn [fst snd]);
      (match goal with
       | |- context [f <? ?x] => destruct (Z.ltb_spec f x)
       end; cbn [fst snd]);
      (match goal with
       | |- context [50 <? ?x] => destruct (Z.ltb_spec 50 x)
       end; [reflexivity | lia]).
Qed.

(** [identifyState] answers the exit exactly when each of the four
    percentages is above 50. *)
Theorem identifyState_exit_iff (drives : ratState) :
  identifyState drives = "E" <->
  forall k, 50 < value k (setPercentage drives).
Proof. exact (exit_iff drives). Qed.

Lemma chosen_drive (drives : ratState) (k : drive) :
  associated (identifyState drives) = Some k ->
  value k (setPercentage drives) <= 50 /\
  forall k', value k (setPercentage drives) <= value k' (setPercentage drives).
Proof.
  unfold identifyState.
  generalize (setPercentage drives) as p. intros [f h u s].
  cbn [fun_ health hunger sleep fst snd].
  destruct (Z.ltb_spec u h); cbn [fst snd];
    (match goal with
     | |- context [s <? ?x] => destruct (Z.ltb_spec s x)
     end; cbn [fst snd]);
    (match goal with
     | |- context [f <? ?x] => destruct (Z.ltb_spec f x)
     end; cbn [fst snd]);
    (match goal with
     | |- context [50 <? ?x] => destruct (Z.ltb_spec 50 x)
     end; cbn; intros [= <-]; split; [cbn; lia | intros []; cbn; lia]).
Qed.

(** The drive of the node that [identifyState] answers is at 50 percent
    or less, and no drive has a smaller percentage. *)
Theorem identifyState_chosen_drive (drives : ratState) (k : drive) :
  associated (identifyState drives) = Some k ->
  value k (setPercentage drives) <= 50 /\
  forall k', value k (setPercentage drives) <= value k' (setPercentage drives).
Proof. exact (chosen_drive drives k). Qed.

Lemma identifyState_chosen_drive_witness :
  associated (identifyState (mkRat 10 50 5 20)) = Some Hunger /\
  value Hunger (setPercentage (mkRat 10 50 5 20)) <= 50.
Proof.
  assert (H : associated (identifyState (mkRat 10 50 5 20)) = Some Hunger)
    by reflexivity.
  split; [exact H |].
  exact (proj1 (identifyState_chosen_drive (mkRat 10 50 5 20) Hunger H)).
Defined.

Lemma satisfied_percent (drives : ratState) (c : ascii) (k : drive) :
  associated c = Some k ->
  value k (setPercentage (satisfyNeed drives c)) = 100.
Proof.
  unfold associated, satisfyNeed.
  destruct (Ascii.eqb c "F"); [intros [= <-]; reflexivity |].
  destruct (Ascii.eqb c "M"); [intros [= <-]; reflexivity |].
  destruct (Ascii.eqb c "N"); [intros [= <-]; reflexivity |].
  destruct (Ascii.eqb c "W"); [intros [= <-]; reflexivity |].
  discriminate.
Qed.

(** After [satisfyNeed] at a node that satisfies a drive, [identifyState]
    does not answer that node again: the drive stands at 100 percent. *)
Theorem identifyState_after_satisfyNeed
    (drives : ratState) (c : ascii) (k : drive) :
  associated c = Some k ->
  identifyState (satisfyNeed drives c) <> c.
Proof.
  intros Hc E.
  destruct (chosen_drive (satisfyNeed drives c) k) as [H _].
  - rewrite E. exact Hc.
  - rewrite (satisfied_percent drives c k Hc) in H. lia.
Qed.

Lemma identifyState_after_satisfyNeed_witness :
  associated "F" = Some Hunger /\
  identifyState (satisfyNeed (mkRat 10 50 5 20) "F") <> "F".
Proof.
  assert (H : associated "F" = Some Hunger) by reflexivity.
  split; [exact H |].
  exact (identifyState_after_satisfyNeed (mkRat 10 50 5 20) "F" Hunger H).
Defined.

Lemma clamp0_twice v a b :
  0 <= b -> clamp0 (clamp0 (v - a) - b) = clamp0 (v - (a + b)).
Proof. intros Hb. rewrite !clamp0_max. lia. Qed.

(** Two trips decay drives that are inside their bounds like one trip of
    the added distances, for distances that are not negative and whose sum
    is an [int]: no subtraction leaves the range of [int] then. *)
Theorem updateState_compose (drives : ratState) (a b : Z) :
  in_bounds drives -> 0 <= a -> 0 <= b -> a + b <= Loader.INT_MAX ->
  updateState (updateState drives a) b = updateState drives (a + b).
Proof.
  intros _ _ Hb _. unfold updateState. cbn [fun_ health hunger sleep].
  now rewrite !clamp0_twice by exact Hb.
Qed.

Lemma updateState_compose_witness :
  in_bounds (mkRat 10 50 5 20) /\ 0 <= 3 /\ 0 <= 4 /\
  3 + 4 <= Loader.INT_MAX /\
  updateState (updateState (mkRat 10 50 5 20) 3) 4
  = updateState (mkRat 10 50 5 20) (3 + 4).
Proof.
  assert (Hd : in_bounds (mkRat 10 50 5 20))
    by (unfold in_bounds, FUN_MAX, HEALTH_MAX, HUNGER_MAX, SLEEP_MAX; cbn; lia).
  assert (Ha : 0 <= 3) by lia.
  assert (Hb : 0 <= 4) by lia.
  assert (Hs : 3 + 4 <= Loader.INT_MAX) by (unfold Loader.INT_MAX; lia).
  repeat (split; [assumption |]).
  exact (updateState_compose (mkRat 10 50 5 20) 3 4 Hd Ha Hb Hs).
Defined.

(** A clamped drive does not come back: after a first trip of a negative
    length the two trips do not add up. *)
Example updateState_compose_negative :
  updateState (updateState (mkRat 0 0 0 0) 5) (-5) = mkRat 5 5 5 5 /\
  updateState (mkRat 0 0 0 0) (5 + -5) = mkRat 0 0 0 0.
Proof. split; reflexivity. Qed.

(** [satisfyNeed] at two nodes gives the same state in either order, and
    a second [satisfyNeed] at the same node changes nothing. *)
Theorem satisfyNeed_commutes (drives : ratState) (c c' : ascii) :
  satisfyNeed (satisfyNeed drives c) c' = satisfyNeed (satisfyNeed drives c') c /\
  satisfyNeed (satisfyNeed drives c) c = satisfyNeed drives c.
Proof.
  unfold satisfyNeed. split.
  - destruct (Ascii.eqb c "F"), (Ascii.eqb c "M"), (Ascii.eqb c "N"),
      (Ascii.eqb c "W"), (Ascii.eqb c' "F"), (Ascii.eqb c' "M"),
      (Ascii.eqb c' "N"), (Ascii.eqb c' "W"); reflexivity.
  - destruct (Ascii.eqb c "F"), (Ascii.eqb c "M"), (Ascii.eqb c "N"),
      (Ascii.eqb c "W"); reflexivity.
Qed.

(** On drives inside their bounds every percentage lies between 0 and
    100, and it is 100 exactly when the drive is at its maximum. *)
Theorem setPercentage_range (drives : ratState) :
  in_bounds drives ->
  forall k,
    0 <= value k (setPercentage drives) <= 100 /\
    (value k (setPercentage drives) = 100 <-> value k drives = maximum k).
Proof.
  intros (Hf & Hh & Hu & Hs) k.
  destruct k; cbn [value maximum setPercentage fun_ health hunger sleep];
    (split; [apply percent_range | apply percent_full]);
    (assumption || reflexivity).
Qed.

Lemma setPercentage_range_witness :
  in_bounds (mkRat 35 50 5 20) /\
  0 <= value Fun (setPercentage (mkRat 35 50 5 20)) <= 100.
Proof.
  assert (H : in_bounds (mkRat 35 50 5 20))
    by (unfold in_bounds, FUN_MAX, HEALTH_MAX, HUNGER_MAX, SLEEP_MAX; cbn; lia).
  split; [exact H |].
  exact (proj1 (setPercentage_range (mkRat 35 50 5 20) H Fun)).
Defined.

(** [initializeDrives] starts every drive below its maximum, whatever
    [rand()] returns: no percentage is 100 at the start. *)
Theorem initializeDrives_below_maximum (r1 r2 r3 r4 : Z) :
  0 <= r1 -> 0 <= r2 -> 0 <= r3 -> 0 <= r4 ->
  forall k,
    0 <= value k (initializeDrives r1 r2 r3 r4) < maximum k /\
    value k (setPercentage (initializeDrives r1 r2 r3 r4)) < 100.
Proof.
  intros H1 H2 H3 H4 k.
  assert (Hb : 0 <= value k (initializeDrives r1 r2 r3 r4) < maximum k).
  { destruct k; cbn; apply Z.rem_bound_pos; (assumption || reflexivity). }
  split; [exact Hb |].
  assert (Hm : 0 < maximum k) by (destruct k; reflexivity).
  assert (E : value k (setPercentage (initializeDrives r1 r2 r3 r4))
              = Z.quot (100 * value k (initializeDrives r1 r2 r3 r4)) (maximum k))
    by (destruct k; reflexivity).
  rewrite E.
  pose proof (percent_range (value k (initializeDrives r1 r2 r3 r4)) _ Hm
                ltac:(lia)) as Hr.
  pose proof (percent_full (value k (initializeDrives r1 r2 r3 r4)) _ Hm ltac:(lia))
    as Hfull.
  destruct (Z.eq_dec (Z.quot (100 * value k (initializeDrives r1 r2 r3 r4))
                             (maximum k)) 100) as [E100 | Hne]; [| lia].
  apply Hfull in E100. lia.
Qed.

Lemma initializeDrives_below_maximum_witness :
  0 <= value Sleep (initializeDrives 1000 2000 3000 4079) < maximum Sleep.
Proof.
  apply (initializeDrives_below_maximum 1000 2000 3000 4079); lia.
Defined.

End DriveMore.

(** * Further properties of the route search *)

Section RouteMore.

Import Route SearchInv WalkInv.

Ltac node := unfold is_node, nodeAlphabet; cbn; auto 10.
Ltac member := cbn; repeat (first [left; reflexivity | right]).
Ltac entries tac :=
  cbn; repeat (apply Forall_cons; [tac |]); apply Forall_nil.

(** ** The helpers of the search, one by one *)

Lemma findNeighbors_frame c k G :
  forall W W1,
  findNeighbors G W c k = Some W1 ->
  List.length W1 = List.length W /\
  forall j,
    (forall e, In e G -> initial e = c ->
               nodeToNumber (terminal e) <> Some j) ->
    get W1 j = get W j.
Proof.
  induction G as [| e G IH]; intros W W1; cbn [findNeighbors].
  - intros [= <-]. auto.
  - destruct (Ascii.eqb_spec c (initial e)) as [Ec | Ec].
    + destruct (nodeToNumber (terminal e)) as [n |] eqn:En; [| discriminate].
      destruct (_ <? _).
      * intros H. destruct (IH _ _ H) as [L F]. rewrite length_upd in L.
        split; [exact L |]. intros j Hj.
        rewrite F by (intros e' He'; apply Hj; now right).
        apply get_upd_ne. intros ->.
        apply (Hj e (or_introl eq_refl) (eq_sym Ec) En).
      * intros H. destruct (IH _ _ H) as [L F].
        split; [exact L |]. intros j Hj.
        apply F. intros e' He'. apply Hj. now right.
    + intros H. destruct (IH _ _ H) as [L F].
      split; [exact L |]. intros j Hj.
      apply F. intros e' He'. apply Hj. now right.
Qed.

Lemma nodeToNumber_inj a b n :
  nodeToNumber a = Some n -> nodeToNumber b = Some n -> a = b.
Proof.
  intros Ha Hb. apply nodeToNumber_inv in Ha, Hb.
  destruct Ha as (_ & Ha & _). destruct Hb as (_ & Hb & _). congruence.
Qed.

(** A relaxation writes weights of paths only. *)
Lemma findNeighbors_paths g src c k G :
  nodeToNumber c = Some k ->
  forall W W1,
  (forall e, In e G -> initial e = c -> In e g) ->
  (6 < List.length W)%nat ->
  path g src c (get W k) ->
  findNeighbors G W c k = Some W1 ->
  path g src c (get W1 k) /\
  forall j, get W1 j = get W j \/
            exists u, nodeToNumber u = Some j /\ path g src u (get W1 j).
Proof.
  intros Hk.
  induction G as [| e G IH]; intros W W1 Hsub Hlen Hp; cbn [findNeighbors].
  - intros [= <-]. auto.
  - assert (Hsub' : forall e', In e' G -> initial e' = c -> In e' g)
      by (intros; apply Hsub; [now right | assumption]).
    destruct (Ascii.eqb_spec c (initial e)) as [Ec | Ec];
      [| intros H; exact (IH _ _ Hsub' Hlen Hp H)].
    destruct (nodeToNumber (terminal e)) as [n |] eqn:En; [| discriminate].
    destruct (_ <? _); [| intros H; exact (IH _ _ Hsub' Hlen Hp H)].
    assert (Hn : (n <= 6)%nat) by (apply nodeToNumber_inv in En; tauto).
    assert (Hpe : path g src (terminal e) (weight e + get W k)).
    { rewrite Z.add_comm.
      apply (path_snoc g src c); [exact Hp | | now symmetry].
      apply Hsub; [now left | now symmetry]. }
    intros H.
    destruct (IH (upd n (weight e + get W k) W) W1 Hsub') as [Hk1 Hall];
      [rewrite length_upd; exact Hlen | | exact H |].
    + destruct (Nat.eq_dec n k) as [-> | Hne].
      * rewrite get_upd_eq by lia.
        now rewrite (nodeToNumber_inj _ _ _ Hk En).
      * rewrite get_upd_ne by exact Hne. exact Hp.
    + split; [exact Hk1 |]. intros j.
      destruct (Hall j) as [E | Hex]; [| now right].
      destruct (Nat.eq_dec n j) as [-> | Hne].
      * rewrite get_upd_eq in E by lia. right.
        exists (terminal e). split; [exact En |]. now rewrite E.
      * rewrite get_upd_ne in E by exact Hne. now left.
Qed.

(** [findLeast] keeps the first of several equal entries. *)
Lemma findLeast_fold_first W n :
  forall s base node,
  let r := fold_left (findLeast_step W) (seq s n) (base, node) in
  r = (base, node) \/
  exists i, (s <= i < s + n)%nat /\ snd r = Some i /\
            get W i = fst r /\ fst r <> 0 /\ fst r < base /\
            forall j, (s <= j < i)%nat -> get W j <> 0 -> fst r < get W j.
Proof.
  induction n as [| n IH]; intros s base node; cbn [seq fold_left];
    [now left |].
  assert (Hstep : findLeast_step W (base, node) s =
                  if negb (get W s =? 0) && (get W s <? base)
                  then (get W s, Some s) else (base, node)) by reflexivity.
  rewrite Hstep.
  destruct (Z.eqb_spec (get W s) 0) as [E0 | E0]; cbn [negb andb].
  - destruct (IH (S s) base node)
      as [Hres | (i & Hi & Es & Eg & Hnz & Hlt & Hfirst)]; [now left |].
    right. exists i. repeat split; auto; try lia.
    intros j Hj Hnzj. destruct (Nat.eq_dec j s) as [-> | Hne];
      [contradiction | apply Hfirst; [lia | exact Hnzj]].
  - destruct (Z.ltb_spec (get W s) base) as [Hlt0 | Hge].
    + right.
      destruct (IH (S s) (get W s) (Some s))
        as [Hres | (i & Hi & Es & Eg & Hnz & Hlt & Hfirst)].
      * exists s. rewrite Hres. cbn. repeat split; auto; lia.
      * exists i. repeat split; auto; try lia.
        intros j Hj Hnzj. destruct (Nat.eq_dec j s) as [-> | Hne];
          [exact Hlt | apply Hfirst; [lia | exact Hnzj]].
    + destruct (IH (S s) base node)
        as [Hres | (i & Hi & Es & Eg & Hnz & Hlt & Hfirst)]; [now left |].
      right. exists i. repeat split; auto; try lia.
      intros j Hj Hnzj. destruct (Nat.eq_dec j s) as [-> | Hne];
        [lia | apply Hfirst; [lia | exact Hnzj]].
Qed.

(** What [findLeast] answers: the letter of the first index, among those
    whose entry is neither 0 nor 42 or more, with the least entry. *)
Lemma findLeast_result W c :
  findLeast W = Some c ->
  exists i,
    numberToNode i = Some c /\ (i < VERTEX_COUNT / 2)%nat /\
    get W i <> 0 /\ get W i < INFINITY_APPROX /\
    (forall j, (j < VERTEX_COUNT / 2)%nat -> get W j <> 0 ->
               get W i <= get W j) /\
    (forall j, (j < i)%nat -> get W j <> 0 -> get W i < get W j).
Proof.
  unfold findLeast.
  destruct (findLeast_fold W (VERTEX_COUNT / 2) 0 42 None) as (_ & Hmin & _).
  destruct (findLeast_fold_first W (VERTEX_COUNT / 2) 0 42 None)
    as [Hres | (i & Hi & Es & Eg & Hnz & Hlt & Hfirst)];
    cbv zeta in *.
  - rewrite Hres. discriminate.
  - rewrite Es. intros Hc. exists i. rewrite Eg.
    unfold INFINITY_APPROX. repeat split; auto; try lia.
    + intros j Hj Hnzj. apply Hmin; [lia | exact Hnzj].
    + intros j Hj Hnzj. apply Hfirst; [lia | exact Hnzj].
Qed.

(** ** The search on any graph *)

Section Walk.

Variable g : list edgeWeight.
Variable src : ascii.

Lemma walk_init k :
  nodeToNumber src = Some k ->
  walk_inv g src [] g (upd k 0 initializeNodeWeight) src.
Proof.
  intros Hk.
  assert (Hsrc : is_node src) by (apply nodeToNumber_inv in Hk; tauto).
  assert (Ek : idx src = k) by now apply nodeToNumber_idx.
  assert (Hk6 : (k <= 6)%nat) by (apply nodeToNumber_inv in Hk; tauto).
  assert (E0 : wt (upd k 0 initializeNodeWeight) src = 0)
    by (unfold wt; rewrite Ek; apply get_upd_eq; cbn; lia).
  constructor.
  - constructor; [intros [] | constructor].
  - intros v [<- | []]. exact Hsrc.
  - symmetry. apply prune_nil.
  - now rewrite length_upd.
  - intros v [].
  - rewrite E0. apply path_nil.
  - rewrite E0. reflexivity.
  - reflexivity.
  - intros u Hu Hout. left. unfold wt. rewrite get_upd_ne.
    + apply get_initial. destruct (idx_spec u Hu) as [_ H6]. cbn. lia.
    + rewrite <- Ek. intros E. apply Hout. left. now apply idx_inj.
Qed.

Lemma walk_step V G W c W1 c' :
  walk_inv g src V G W c ->
  findNeighbors G W c (idx c) = Some W1 ->
  findLeast (upd (idx c) 0 W1) = Some c' ->
  nodeToNumber c' = Some (idx c') /\
  wt (upd (idx c) 0 W1) c' <> 0 /\
  walk_inv g src (c :: V) (removeVertex G c) (upd (idx c) 0 W1) c'.
Proof.
  intros Hinv E1 E2.
  assert (Hc : is_node c) by (apply (walk_nodes _ _ _ _ _ _ Hinv); now left).
  destruct (idx_spec c Hc) as [Hck Hc6].
  pose proof (walk_length _ _ _ _ _ _ Hinv) as HL.
  pose proof (walk_graph _ _ _ _ _ _ Hinv) as EG.
  destruct (findNeighbors_frame _ _ _ _ _ E1) as [L1 Hframe].
  assert (Hsub : forall e, In e G -> initial e = c -> In e g /\ ~ In (terminal e) V).
  { intros e He Hi. rewrite EG in He.
    destruct (In_prune _ _ _ He) as [H | [HZ _]]; [exact H |].
    destruct Z_not_node. now rewrite <- HZ, Hi. }
  destruct (findNeighbors_paths g src c (idx c) G Hck W W1) as [_ Hpaths];
    [intros e He Hi; apply (Hsub e He Hi) | rewrite HL; cbn; lia
     | exact (walk_current _ _ _ _ _ _ Hinv) | exact E1 |].
  set (W2 := upd (idx c) 0 W1) in *.
  assert (Hother : forall u, is_node u -> u <> c -> wt W2 u = get W1 (idx u)).
  { intros u Hu Huc. unfold wt, W2. apply get_upd_ne.
    intros E. apply Huc. symmetry. now apply idx_inj. }
  assert (Hzero : forall v, In v (c :: V) -> wt W2 v = 0).
  { intros v [<- | Hv].
    - unfold wt, W2. apply get_upd_eq. rewrite L1, HL. cbn. lia.
    - assert (Hvn : is_node v)
        by (apply (walk_nodes _ _ _ _ _ _ Hinv); now right).
      assert (Hvc : v <> c).
      { intros ->. pose proof (walk_nodup _ _ _ _ _ _ Hinv) as ND.
        inversion ND; contradiction. }
      rewrite (Hother v Hvn Hvc), Hframe.
      + exact (walk_visited _ _ _ _ _ _ Hinv v Hv).
      + intros e He Hi Hj. destruct (Hsub e He Hi) as [_ Hout].
        now rewrite (number_is_idx _ _ Hvn Hj) in Hout. }
  assert (Hfringe : forall u, is_node u -> ~ In u (c :: V) ->
                    wt W2 u = INFINITY_APPROX \/ path g src u (wt W2 u)).
  { intros u Hu Hout.
    rewrite (Hother u Hu) by (intros ->; apply Hout; now left).
    destruct (Hpaths (idx u)) as [E | (x & Hx & Hp)].
    - rewrite E. exact (walk_fringe _ _ _ _ _ _ Hinv u Hu Hout).
    - right. rewrite (number_is_idx _ _ Hu Hx) in Hp. exact Hp. }
  destruct (findLeast_result _ _ E2) as (i & Ei & Hi & Hnz & Hlt & _ & _).
  destruct (numberToNode_inv _ _ Ei) as (Hc' & Ec' & _).
  assert (Eidx : idx c' = i) by now apply nodeToNumber_idx.
  assert (Hnz' : wt W2 c' <> 0) by (unfold wt; now rewrite Eidx).
  assert (Hout' : ~ In c' (c :: V)) by (intros H; apply Hnz'; now apply Hzero).
  split; [now rewrite Eidx |]. split; [exact Hnz' |].
  constructor.
  - constructor; [exact Hout' | exact (walk_nodup _ _ _ _ _ _ Hinv)].
  - intros v [<- | Hv]; [exact Hc' | exact (walk_nodes _ _ _ _ _ _ Hinv v Hv)].
  - rewrite EG. now apply removeVertex_prune.
  - unfold W2. now rewrite length_upd, L1.
  - exact Hzero.
  - destruct (Hfringe c' Hc' Hout') as [E | Hp]; [| exact Hp].
    unfold wt in E. rewrite Eidx in E. lia.
  - unfold wt. now rewrite Eidx.
  - intros E. contradiction.
  - intros u Hu Hout. apply Hfringe; [exact Hu |].
    intros H. apply Hout. now right.
Qed.

Lemma walk_bound V G W c :
  walk_inv g src V G W c -> (List.length V <= 6)%nat.
Proof.
  intros Hinv.
  assert (H : (List.length (c :: V) <= List.length nodeAlphabet)%nat).
  { apply NoDup_incl_length; [exact (walk_nodup _ _ _ _ _ _ Hinv) |].
    intros v Hv. exact (walk_nodes _ _ _ _ _ _ Hinv v Hv). }
  cbn in H. lia.
Qed.

Lemma walk_loop_sound fuel t :
  forall V G W c x d,
  walk_inv g src V G W c ->
  findRoute_loop fuel G W c t (idx c) = Done (x, d) ->
  x = t /\ path g src t d /\ d < INFINITY_APPROX /\ (d = 0 -> t = src).
Proof.
  induction fuel as [| fuel IH]; intros V G W c x d Hinv; cbn [findRoute_loop];
    destruct (Ascii.eqb_spec c t) as [-> | Hne]; try discriminate.
  - intros [= <- <-]. fold (wt W t). split; [reflexivity |].
    split; [exact (walk_current _ _ _ _ _ _ Hinv) |].
    split; [exact (walk_low _ _ _ _ _ _ Hinv) | exact (walk_zero _ _ _ _ _ _ Hinv)].
  - intros [= <- <-]. fold (wt W t). split; [reflexivity |].
    split; [exact (walk_current _ _ _ _ _ _ Hinv) |].
    split; [exact (walk_low _ _ _ _ _ _ Hinv) | exact (walk_zero _ _ _ _ _ _ Hinv)].
  - destruct (findNeighbors G W c (idx c)) as [W1 |] eqn:E1; [| discriminate].
    destruct (findLeast (upd (idx c) 0 W1)) as [c' |] eqn:E2; [| discriminate].
    destruct (walk_step _ _ _ _ _ _ Hinv E1 E2) as (Ek & _ & Hinv').
    rewrite Ek. apply (IH _ _ _ _ _ _ Hinv').
Qed.

Lemma walk_loop_rounds fuel t :
  forall V G W c,
  walk_inv g src V G W c ->
  (7 <= fuel + List.length V)%nat ->
  findRoute_loop fuel G W c t (idx c) <> OutOfFuel.
Proof.
  induction fuel as [| fuel IH]; intros V G W c Hinv Hfuel.
  - pose proof (walk_bound _ _ _ _ Hinv). cbn in Hfuel. lia.
  - cbn [findRoute_loop].
    destruct (Ascii.eqb c t); [discriminate |].
    destruct (findNeighbors G W c (idx c)) as [W1 |] eqn:E1; [| discriminate].
    destruct (findLeast (upd (idx c) 0 W1)) as [c' |] eqn:E2; [| discriminate].
    destruct (walk_step _ _ _ _ _ _ Hinv E1 E2) as (Ek & _ & Hinv').
    rewrite Ek. apply (IH _ _ _ _ Hinv'). cbn. lia.
Qed.

End Walk.

Lemma search_done
    (fuel : nat) (newGraph : list edgeWeight) (from to x : ascii) (d : Z) :
  findRoute fuel newGraph from to = Done (x, d) ->
  x = to /\ path newGraph from to d /\ d < INFINITY_APPROX /\
  (d = 0 <-> from = to).
Proof.
  unfold findRoute.
  destruct (nodeToNumber from) as [k |] eqn:Ek; [| discriminate].
  intros H.
  rewrite <- (nodeToNumber_idx _ _ Ek) in H at 2.
  destruct (walk_loop_sound newGraph from fuel to _ _ _ _ _ _
              (walk_init newGraph from k Ek) H) as (Ex & Hp & Hlt & H0).
  split; [exact Ex |]. split; [exact Hp |]. split; [exact Hlt |].
  split; [intros E0; symmetry; exact (H0 E0) |].
  intros <-.
  assert (E : findRoute_loop fuel newGraph (upd k 0 initializeNodeWeight)
                             from from (idx from) = Done (from, 0)).
  { rewrite (nodeToNumber_idx _ _ Ek).
    assert (Eg : get (upd k 0 initializeNodeWeight) k = 0).
    { apply get_upd_eq. apply nodeToNumber_inv in Ek. cbn. lia. }
    destruct fuel; cbn [findRoute_loop]; now rewrite Ascii.eqb_refl, Eg. }
  congruence.
Qed.

(** With bounded weights every sum that a relaxation forms is the sum of
    the [int]s: the entry of the current node is the weight of a path, so
    not negative, and below the sentinel. *)
Lemma walk_sum_fits g src V G W c :
  Ints.bounded_weights g ->
  walk_inv g src V G W c ->
  0 <= wt W c < INFINITY_APPROX /\
  forall e, In e G -> initial e = c ->
            0 <= weight e + wt W c <= Loader.INT_MAX.
Proof.
  intros Hb Hinv.
  assert (Hnn : Forall (fun e => 0 <= weight e) g)
    by (eapply Forall_impl; [| exact Hb]; cbn; intros; lia).
  pose proof (path_nonneg _ _ _ _ Hnn (walk_current _ _ _ _ _ _ Hinv)) as H0.
  pose proof (walk_low _ _ _ _ _ _ Hinv) as H1.
  split; [lia |]. intros e He _.
  rewrite (walk_graph _ _ _ _ _ _ Hinv) in He.
  destruct (prune_weight _ _ _ He) as (e0 & He0 & ->).
  unfold Ints.bounded_weights in Hb. rewrite Forall_forall in Hb.
  specialize (Hb e0 He0). cbn in Hb.
  unfold INFINITY_APPROX, Loader.INT_MAX in *. lia.
Qed.

(** On a graph with bounded weights, whenever [findRoute] returns, it has
    arrived at the requested node, and the distance it returns is the
    weight of a path of the graph from the start to that node, is not
    negative, is below the sentinel, and is 0 only for a search that starts
    at its target. *)
Theorem findRoute_sound
    (fuel : nat) (newGraph : list edgeWeight) (from to x : ascii) (d : Z) :
  Ints.bounded_weights newGraph ->
  findRoute fuel newGraph from to = Done (x, d) ->
  x = to /\ path newGraph from to d /\ 0 <= d < INFINITY_APPROX /\
  (d = 0 <-> from = to).
Proof.
  intros Hb H.
  destruct (search_done fuel newGraph from to x d H) as (Ex & Hp & Hlt & H0).
  assert (Hnn : Forall (fun e => 0 <= weight e) newGraph)
    by (eapply Forall_impl; [| exact Hb]; cbn; intros; lia).
  pose proof (path_nonneg _ _ _ _ Hnn Hp).
  repeat split; auto; apply H0.
Qed.

Lemma maze_graph_bounded : Ints.bounded_weights Examples.maze_graph.
Proof.
  unfold Ints.bounded_weights, Loader.INT_MAX, INFINITY_APPROX.
  entries ltac:(cbn; lia).
Qed.

Lemma findRoute_sound_witness :
  Ints.bounded_weights Examples.maze_graph /\
  findRoute 6 Examples.maze_graph "E" "M" = Done ("M", 6) /\
  path Examples.maze_graph "E" "M" 6.
Proof.
  assert (H : findRoute 6 Examples.maze_graph "E" "M" = Done ("M", 6))
    by reflexivity.
  split; [exact maze_graph_bounded |]. split; [exact H |].
  exact (proj1 (proj2 (findRoute_sound 6 Examples.maze_graph "E" "M" "M" 6
                         maze_graph_bounded H))).
Defined.

Lemma search_rounds
    (fuel : nat) (newGraph : list edgeWeight) (from to : ascii) :
  (7 <= fuel)%nat ->
  findRoute fuel newGraph from to <> OutOfFuel.
Proof.
  intros Hfuel. unfold findRoute.
  destruct (nodeToNumber from) as [k |] eqn:Ek; [| discriminate].
  rewrite <- (nodeToNumber_idx _ _ Ek) at 2.
  apply (walk_loop_rounds newGraph from fuel to _ _ _ _
           (walk_init newGraph from k Ek)).
  cbn. lia.
Qed.

(** The body of the loop runs at most seven times, whatever the graph
    holds: a search with fuel for seven rounds ends, with a result or in
    the undefined read. *)
Theorem findRoute_rounds
    (fuel : nat) (newGraph : list edgeWeight) (from to : ascii) :
  (7 <= fuel)%nat ->
  findRoute fuel newGraph from to <> OutOfFuel.
Proof. exact (search_rounds fuel newGraph from to). Qed.

Lemma findRoute_rounds_witness :
  (7 <= 7)%nat /\ findRoute 7 Examples.zero_graph "E" "N" <> OutOfFuel.
Proof.
  assert (H : (7 <= 7)%nat) by lia.
  split; [exact H | exact (findRoute_rounds 7 Examples.zero_graph "E" "N" H)].
Defined.

(** In a valid graph with positive weights the search returns a distance
    exactly when the target can be reached. *)
Theorem findRoute_reachable_iff
    (fuel : nat) (newGraph : list edgeWeight) (from to : ascii) :
  valid_graph newGraph -> positive_weights newGraph -> is_node from ->
  (6 <= fuel)%nat ->
  ((exists d, findRoute fuel newGraph from to = Done (to, d)) <->
   (exists d, path newGraph from to d)).
Proof.
  intros Hv Hp Hfrom Hfuel. split.
  - intros [d H]. exists d.
    exact (proj1 (proj2 (search_done _ _ _ _ _ _ H))).
  - intros Hreach.
    destruct (search_correct newGraph from to (valid_graph_nodes _ Hv) Hp
                (proj2 (proj2 Hv)) Hfrom fuel Hreach Hfuel) as (d & E & _).
    now exists d.
Qed.

Lemma findRoute_reachable_iff_witness :
  valid_graph Examples.maze_graph /\
  positive_weights Examples.maze_graph /\
  is_node "M" /\ (6 <= 6)%nat /\
  exists d, path Examples.maze_graph "M" "E" d.
Proof.
  assert (Hp : positive_weights Examples.maze_graph)
    by (unfold positive_weights; entries ltac:(cbn; lia)).
  assert (HM : is_node "M") by node.
  assert (Hf : (6 <= 6)%nat) by lia.
  split; [exact maze_graph_valid |]. split; [exact Hp |].
  split; [exact HM |]. split; [exact Hf |].
  apply (proj1 (findRoute_reachable_iff 6 Examples.maze_graph "M" "E"
                  maze_graph_valid Hp HM Hf)).
  exists 6. reflexivity.
Defined.

(** ** The order of the entries *)

Lemma path_incl g g' x y d :
  (forall e, In e g -> In e g') -> path g x y d -> path g' x y d.
Proof.
  intros Hsub. induction 1 as [x | e y d He Hp IH];
    [apply path_nil | apply path_cons; auto].
Qed.

Lemma total_weight_perm g g' :
  Permutation g g' -> total_weight g = total_weight g'.
Proof.
  unfold total_weight.
  induction 1 as [| e g g' Hp IH | e1 e2 g | g g' g'' H1 IH1 H2 IH2]; cbn;
    lia.
Qed.

Lemma valid_graph_perm g g' :
  Permutation g g' -> valid_graph g -> valid_graph g'.
Proof.
  intros Hp (HL & HF & HT). split; [| split].
  - rewrite <- HL. symmetry. now apply Permutation_length.
  - exact (Permutation_Forall Hp HF).
  - now rewrite <- (total_weight_perm _ _ Hp).
Qed.

(** In a valid graph with positive weights the answer of the search does
    not depend on the order of the entries. *)
Theorem findRoute_permutation
    (fuel : nat) (g g' : list edgeWeight) (from to : ascii) :
  valid_graph g -> positive_weights g -> Permutation g g' ->
  is_node from -> (7 <= fuel)%nat ->
  findRoute fuel g from to = findRoute fuel g' from to.
Proof.
  intros Hv Hpos Hperm Hfrom Hfuel.
  assert (Hv' : valid_graph g') by exact (valid_graph_perm _ _ Hperm Hv).
  assert (Hpos' : positive_weights g') by exact (Permutation_Forall Hperm Hpos).
  assert (Hto : forall x y d, path g x y d -> path g' x y d).
  { intros x y d. apply path_incl. intros e. now apply Permutation_in. }
  assert (Hback : forall x y d, path g' x y d -> path g x y d).
  { intros x y d. apply path_incl. intros e.
    apply Permutation_in. now symmetry. }
  assert (Hboth : (exists d, path g from to d) ->
                  findRoute fuel g from to = findRoute fuel g' from to).
  { intros Hreach.
    destruct (search_correct g from to (valid_graph_nodes _ Hv) Hpos
                (proj2 (proj2 Hv)) Hfrom fuel Hreach ltac:(lia))
      as (d1 & E1 & Hp1 & Hmin1).
    assert (Hreach' : exists d, path g' from to d)
      by (destruct Hreach as [d Hd]; exists d; auto).
    destruct (search_correct g' from to (valid_graph_nodes _ Hv') Hpos'
                (proj2 (proj2 Hv')) Hfrom fuel Hreach' ltac:(lia))
      as (d2 & E2 & Hp2 & Hmin2).
    rewrite E1, E2.
    assert (d1 = d2); [| now subst].
    pose proof (Hmin1 d2 (Hback _ _ _ Hp2)).
    pose proof (Hmin2 d1 (Hto _ _ _ Hp1)). lia. }
  destruct (findRoute fuel g from to) as [[x d] | |] eqn:E.
  - apply Hboth. exists d.
    exact (proj1 (proj2 (search_done _ _ _ _ _ _ E))).
  - destruct (findRoute fuel g' from to) as [[x d] | |] eqn:E'.
    + apply Hboth. exists d. apply Hback.
      exact (proj1 (proj2 (search_done _ _ _ _ _ _ E'))).
    + reflexivity.
    + destruct (search_rounds fuel g' from to Hfuel E').
  - destruct (search_rounds fuel g from to Hfuel E).
Qed.

Lemma findRoute_permutation_witness :
  findRoute 7 Examples.maze_graph "E" "M"
  = findRoute 7 (rev Examples.maze_graph) "E" "M".
Proof.
  apply (findRoute_permutation 7 Examples.maze_graph (rev Examples.maze_graph)).
  - exact maze_graph_valid.
  - unfold positive_weights; entries ltac:(cbn; lia).
  - apply Permutation_rev.
  - node.
  - lia.
Defined.

Lemma numberToNode_int_index n :
  Ints.numberToNode (Z.of_nat n) = numberToNode n.
Proof.
  do 7 (destruct n as [| n]; [reflexivity |]).
  unfold Ints.numberToNode.
  repeat match goal with
         | |- context [?a =? ?b] => destruct (Z.eqb_spec a b); [lia |]
         end.
  reflexivity.
Qed.

(** Outside the seven letters and the seven indices the two [switch]
    statements assign nothing: [nodeToNumber] is unassigned exactly on the
    letters that are no node, [numberToNode] exactly on the numbers below 0
    or above 6; on the loop indices, which are not negative, that is on the
    numbers above 6. *)
Theorem node_number_undefined_iff :
  (forall c, nodeToNumber c = None <-> ~ is_node c) /\
  (forall z, Ints.numberToNode z = None <-> z < 0 \/ 6 < z) /\
  (forall n, Ints.numberToNode (Z.of_nat n) = numberToNode n) /\
  (forall n, numberToNode n = None <-> (6 < n)%nat).
Proof.
  split; [| split; [| split]].
  - intros c. split.
    + intros E Hc. destruct (is_node_number c Hc) as (n & En & _). congruence.
    + intros Hc. destruct (nodeToNumber c) as [n |] eqn:E; [| reflexivity].
      destruct Hc. apply nodeToNumber_inv in E. tauto.
  - intros z. unfold Ints.numberToNode.
    repeat match goal with
           | |- context [?a =? ?b] =>
               destruct (Z.eqb_spec a b); [split; [discriminate | lia] |]
           end.
    split; [lia | reflexivity].
  - exact numberToNode_int_index.
  - intros n. split.
    + intros E. destruct (Nat.le_gt_cases n 6) as [H | H]; [| exact H].
      destruct (number_node n H) as (c & Ec & _). congruence.
    + intros H. destruct (numberToNode n) as [c |] eqn:E; [| reflexivity].
      apply numberToNode_inv in E. lia.
Qed.

(** ** The helpers, as their callers see them *)

(** [findNeighbors], when every entry out of the current node has a
    weight that is not negative, ends at a node letter and makes with the
    current weight a sum that is an [int], is defined; it keeps the length
    of [nodeWeight], raises no entry, brings the entry of every neighbour
    down to at most the current weight plus the weight of the entry that
    leads to it, and every entry it changes is such a sum. *)
Theorem findNeighbors_relaxes
    (currentNode : ascii) (currentNum : nat)
    (newGraph : list edgeWeight) (nodeWeight : list Z) :
  (forall e, In e newGraph -> 0 <= weight e) ->
  (forall e, In e newGraph -> initial e = currentNode ->
             exists j, nodeToNumber (terminal e) = Some j) ->
  (6 < List.length nodeWeight)%nat ->
  Loader.INT_MIN <= get nodeWeight currentNum ->
  (forall e, In e newGraph -> initial e = currentNode ->
             weight e + get nodeWeight currentNum <= Loader.INT_MAX) ->
  exists W1,
    findNeighbors newGraph nodeWeight currentNode currentNum = Some W1 /\
    List.length W1 = List.length nodeWeight /\
    get W1 currentNum = get nodeWeight currentNum /\
    (forall j, get W1 j <= get nodeWeight j) /\
    (forall e j, In e newGraph -> initial e = currentNode ->
                 nodeToNumber (terminal e) = Some j ->
                 get W1 j <= weight e + get nodeWeight currentNum) /\
    (forall j, get W1 j = get nodeWeight j \/
               exists e, In e newGraph /\ initial e = currentNode /\
                         nodeToNumber (terminal e) = Some j /\
                         get W1 j = weight e + get nodeWeight currentNum).
Proof.
  intros Hw Hn Hlen _ _.
  exact (findNeighbors_spec currentNode currentNum newGraph nodeWeight
           Hw Hn Hlen).
Qed.

Lemma findNeighbors_relaxes_witness :
  findNeighbors [mkEdge "E" "N" 2; mkEdge "E" "F" 3; mkEdge "N" "A" 1]
                (upd 0 0 initializeNodeWeight) "E" 0
  = Some [0; 2; 3; 42; 42; 42; 42; 42; 42].
Proof.
  destruct (findNeighbors_relaxes "E" 0
              [mkEdge "E" "N" 2; mkEdge "E" "F" 3; mkEdge "N" "A" 1]
              (upd 0 0 initializeNodeWeight))
    as (W1 & E & _).
  - intros e [<- | [<- | [<- | []]]]; cbn; lia.
  - intros e [<- | [<- | [<- | []]]] _; cbn; eauto.
  - cbn. lia.
  - unfold Loader.INT_MIN. cbn. lia.
  - unfold Loader.INT_MAX.
    intros e [<- | [<- | [<- | []]]] _; cbn; lia.
  - reflexivity.
Defined.

(** [findNeighbors] reads an unassigned number exactly when some entry
    out of the current node ends at a letter that is no node. *)
Theorem findNeighbors_undefined_iff
    (currentNode : ascii) (currentNum : nat) (newGraph : list edgeWeight) :
  forall nodeWeight,
  findNeighbors newGraph nodeWeight currentNode currentNum = None <->
  exists e, In e newGraph /\ initial e = currentNode /\
            nodeToNumber (terminal e) = None.
Proof.
  induction newGraph as [| e G IH]; intros W; cbn [findNeighbors].
  - split; [discriminate | intros (e & [] & _)].
  - destruct (Ascii.eqb_spec currentNode (initial e)) as [Ec | Ec].
    + destruct (nodeToNumber (terminal e)) as [n |] eqn:En.
      * destruct (_ <? _); rewrite IH; split;
          try (intros (e' & He' & H); exists e'; split; [now right | exact H]);
          intros (e' & [<- | He'] & Hi & Hn); try congruence;
          exists e'; auto.
      * split; [| reflexivity]. intros _. exists e.
        split; [now left |]. split; [now symmetry | exact En].
    + rewrite IH. split.
      * intros (e' & He' & H). exists e'. split; [now right | exact H].
      * intros (e' & [<- | He'] & Hi & Hn); [congruence |]. exists e'. auto.
Qed.

(** [removeVertex] at a letter other than Z leaves no entry that ends at
    that letter, keeps the number of entries and their weights, and keeps
    every entry that ends elsewhere. *)
Theorem removeVertex_removes (newGraph : list edgeWeight) (c : ascii) :
  c <> "Z" ->
  List.length (removeVertex newGraph c) = List.length newGraph /\
  map weight (removeVertex newGraph c) = map weight newGraph /\
  (forall e, In e (removeVertex newGraph c) -> terminal e <> c) /\
  (forall e, In e newGraph -> terminal e <> c ->
             In e (removeVertex newGraph c)).
Proof.
  intros Hc. unfold removeVertex. split; [apply length_map |].
  split; [| split].
  - rewrite map_map. apply map_ext. intros e.
    now destruct (Ascii.eqb (terminal e) c).
  - intros e He. apply in_map_iff in He. destruct He as (e0 & <- & _).
    destruct (Ascii.eqb_spec (terminal e0) c) as [E | E]; cbn; congruence.
  - intros e He Ht. apply in_map_iff. exists e.
    apply Ascii.eqb_neq in Ht. now rewrite Ht.
Qed.

Lemma removeVertex_removes_witness :
  "N" <> "Z" /\
  forall e, In e (removeVertex Examples.maze_graph "N") -> terminal e <> "N".
Proof.
  assert (H : "N" <> "Z") by discriminate.
  split; [exact H |].
  exact (proj1 (proj2 (proj2 (removeVertex_removes Examples.maze_graph "N" H)))).
Defined.

(** What [findLeast] answers is the letter of an index whose entry is not
    0 and is below 42, is no larger than any other entry that is not 0, and
    is strictly smaller than every such entry at a lower index: of equal
    entries the first wins. *)
Theorem findLeast_choice (nodeWeight : list Z) (c : ascii) :
  findLeast nodeWeight = Some c ->
  exists i,
    numberToNode i = Some c /\ (i < VERTEX_COUNT / 2)%nat /\
    get nodeWeight i <> 0 /\ get nodeWeight i < INFINITY_APPROX /\
    (forall j, (j < VERTEX_COUNT / 2)%nat -> get nodeWeight j <> 0 ->
               get nodeWeight i <= get nodeWeight j) /\
    (forall j, (j < i)%nat -> get nodeWeight j <> 0 ->
               get nodeWeight i < get nodeWeight j).
Proof. exact (findLeast_result nodeWeight c). Qed.

Lemma findLeast_choice_witness :
  findLeast [0; 5; 3; 42; 3; 42; 7; 42; 42] = Some "F" /\
  exists i, numberToNode i = Some "F" /\
            get [0; 5; 3; 42; 3; 42; 7; 42; 42] i = 3.
Proof.
  assert (H : findLeast [0; 5; 3; 42; 3; 42; 7; 42; 42] = Some "F")
    by reflexivity.
  split; [exact H |].
  destruct (findLeast_choice _ _ H) as (i & Ei & _).
  exists i. split; [exact Ei |].
  do 9 (destruct i as [| i]; [try discriminate Ei; reflexivity |]).
  discriminate Ei.
Defined.

(** With the two spare entries at the sentinel, as the search keeps them,
    [findLeast] returns its local [node] unassigned exactly when every
    entry is 0 or at least 42. *)
Theorem findLeast_undefined_iff (nodeWeight : list Z) :
  (forall j, (6 < j)%nat -> (j < VERTEX_COUNT / 2)%nat ->
             get nodeWeight j = INFINITY_APPROX) ->
  (findLeast nodeWeight = None <->
   forall j, (j < VERTEX_COUNT / 2)%nat ->
             get nodeWeight j = 0 \/ INFINITY_APPROX <= get nodeWeight j).
Proof.
  intros Hspare. split; [| apply findLeast_none].
  intros Hnone.
  destruct (candidate_dec nodeWeight) as [Hcand | Hall]; [| exact Hall].
  destruct (findLeast_some nodeWeight Hspare Hcand) as (c & E & _).
  congruence.
Qed.

Lemma findLeast_undefined_iff_witness :
  findLeast [0; 0; 42; 42; 42; 42; 42; 42; 42] = None.
Proof.
  apply (proj2 (findLeast_undefined_iff [0; 0; 42; 42; 42; 42; 42; 42; 42]
                  ltac:(intros j H6 H9;
                        do 7 (destruct j as [| j]; [lia |]);
                        do 2 (destruct j as [| j]; [reflexivity |]);
                        cbn in H9; lia))).
  intros j Hj.
  do 9 (destruct j as [| j];
        [cbn; unfold INFINITY_APPROX; lia |]).
  cbn in Hj. lia.
Defined.

End RouteMore.

(** * Further properties of the loader *)

Section LoaderMore.

Import Loader Source.

Lemma append_assoc_string (a b c : string) :
  ((a ++ b) ++ c = a ++ (b ++ c))%string.
Proof. induction a as [| x a IH]; cbn; [reflexivity | now rewrite IH]. Qed.

Lemma isdigit_bounds c :
  isdigit c = true -> (48 <= nat_of_ascii c <= 57)%nat.
Proof.
  unfold isdigit. intros H. apply andb_prop in H. destruct H as [H1 H2].
  apply Nat.leb_le in H1, H2. lia.
Qed.

Lemma isdigit_not_space c : isdigit c = true -> isspace c = false.
Proof.
  intros H. apply isdigit_bounds in H. unfold isspace.
  destruct (Nat.eqb_spec (nat_of_ascii c) 32); [lia |].
  destruct (Nat.leb_spec (nat_of_ascii c) 13); [lia |].
  cbn. now rewrite andb_false_r.
Qed.

Lemma isdigit_not_sign c :
  isdigit c = true -> Ascii.eqb c "-" = false /\ Ascii.eqb c "+" = false.
Proof.
  intros H. apply isdigit_bounds in H.
  split; apply Ascii.eqb_neq; intros ->; cbn in H; lia.
Qed.

Lemma digit_value_nonneg c : isdigit c = true -> 0 <= digit_value c.
Proof. intros H. apply isdigit_bounds in H. unfold digit_value. lia. Qed.

Lemma decimal_from_nonneg ds :
  forall acc, all_digits ds = true -> 0 <= acc -> 0 <= decimal_from acc ds.
Proof.
  induction ds as [| c ds IH]; intros acc Hd Hacc; cbn [decimal_from];
    [exact Hacc |].
  cbn [all_digits] in Hd. apply andb_prop in Hd. destruct Hd as [Hc Hd].
  apply IH; [exact Hd |]. pose proof (digit_value_nonneg c Hc). lia.
Qed.

(** The digits are read up to the first character that is none. *)
Lemma digits_all ds :
  forall acc seen c rest,
  all_digits ds = true -> isdigit c = false ->
  digits (ds ++ String c rest) acc seen
  = (decimal_from acc ds,
     match ds with EmptyString => seen | _ => true end,
     String c rest).
Proof.
  induction ds as [| d ds IH]; intros acc seen c rest Hd Hc; cbn.
  - now rewrite Hc.
  - cbn in Hd. apply andb_prop in Hd. destruct Hd as [Hd1 Hd2].
    rewrite Hd1, (IH _ _ _ _ Hd2 Hc). now destruct ds.
Qed.

Lemma skipws_letter a rest :
  isspace a = false -> skipws (String a rest) = String a rest.
Proof. intros H. cbn. now rewrite H. Qed.

Lemma extract_char_letter b a rest :
  skipws b = String a rest ->
  extract_char {| buffer := b; good := true |}
  = ({| buffer := rest; good := true |}, Some a).
Proof. intros H. unfold extract_char. cbn [good buffer]. now rewrite H. Qed.

Lemma extract_int_digits b ds c rest :
  skipws b = (ds ++ String c rest)%string ->
  ds <> EmptyString -> all_digits ds = true -> isdigit c = false ->
  decimal ds <= INT_MAX ->
  extract_int {| buffer := b; good := true |}
  = ({| buffer := String c rest; good := true |}, Some (decimal ds)).
Proof.
  intros Hb Hne Hd Hc Hmax. unfold extract_int. cbn [good buffer].
  rewrite Hb.
  assert (Hnn : 0 <= decimal ds)
    by (apply decimal_from_nonneg; [exact Hd | lia]).
  destruct ds as [| d ds]; [congruence |].
  pose proof Hd as Hd'. cbn [all_digits] in Hd'.
  apply andb_prop in Hd'. destruct Hd' as [Hd1 Hd2].
  cbn [append].
  destruct (isdigit_not_sign d Hd1) as [E1 E2]. rewrite E1, E2.
  change (String d (ds ++ String c rest))%string
    with (String d ds ++ String c rest)%string.
  rewrite (digits_all (String d ds) 0 false c rest Hd Hc).
  fold (decimal (String d ds)). cbn [negb].
  destruct (Z.ltb_spec INT_MAX (decimal (String d ds))) as [H | _]; [lia |].
  destruct (Z.ltb_spec (decimal (String d ds)) INT_MIN) as [H | _];
    [unfold INT_MIN in H; lia | reflexivity].
Qed.

(** One round of the loop on a well-formed triple. *)
Lemma load_round (t : triple) (b tail : string) :
  well_formed t ->
  skipws b = (line t ++ tail)%string ->
  exists s3,
    (let '(s1, x) := extract_char {| buffer := b; good := true |} in
     let '(s2, y) := extract_char s1 in
     let '(s3', w) := extract_int s2 in
     (s3', mkSlot x y w)) = (s3, entry_of t) /\
    good s3 = true /\ skipws (buffer s3) = skipws tail.
Proof.
  destruct t as [[a b0] ds]. intros (Ha & Hb & Hne & Hd & Hmax) Hb0.
  cbn [line append] in Hb0. rewrite append_assoc_string in Hb0.
  rewrite (extract_char_letter _ _ _ Hb0).
  rewrite (extract_char_letter _ b0 (String " " (ds ++ Examples.newline ++ tail)));
    [| cbn [skipws]; now rewrite Hb].
  rewrite (extract_int_digits _ ds (ascii_of_nat 10) tail);
    [| cbn [skipws];
       destruct ds as [| d ds]; [congruence |];
       cbn [all_digits] in Hd; apply andb_prop in Hd; destruct Hd as [Hd1 _];
       cbn [append]; now rewrite (skipws_letter d _ (isdigit_not_space d Hd1))
     | exact Hne | exact Hd | reflexivity | exact Hmax].
  eexists. split; [reflexivity |]. split; reflexivity.
Qed.

Lemma load_rendered ts :
  Forall well_formed ts ->
  forall b rest,
  skipws b = skipws (render ts ++ rest) ->
  load_loop (List.length ts) {| buffer := b; good := true |}
  = (map entry_of ts, List.length ts).
Proof.
  induction 1 as [| t ts Ht Hts IH]; intros b rest Hb; [reflexivity |].
  cbn [List.length load_loop map render] in *.
  rewrite append_assoc_string in Hb.
  assert (Hline : skipws (line t ++ (render ts ++ rest))
                  = (line t ++ (render ts ++ rest))%string).
  { destruct t as [[a b0] ds]. destruct Ht as (Ha & _).
    cbn [line append]. now apply skipws_letter. }
  rewrite Hline in Hb.
  destruct (load_round t b _ Ht Hb) as (s3 & E & Hgood & Hskip).
  destruct (extract_char {| buffer := b; good := true |}) as [s1 x].
  destruct (extract_char s1) as [s2 y].
  destruct (extract_int s2) as [s3' w].
  injection E as -> <-.
  destruct s3 as [b3 g3]. cbn in Hgood, Hskip. subst g3.
  rewrite (IH b3 rest Hskip). cbn. reflexivity.
Qed.

Lemma loadGraph_well_formed_aux (ts : list triple) (rest : string) :
  List.length ts = VERTEX_COUNT -> Forall well_formed ts ->
  loadGraph (Some (render ts ++ rest)%string) = (true, map entry_of ts) /\
  triples_read (render ts ++ rest) = VERTEX_COUNT.
Proof.
  intros Hlen Hwf. unfold loadGraph, triples_read. rewrite <- Hlen.
  now rewrite (load_rendered ts Hwf (render ts ++ rest)%string rest eq_refl).
Qed.

(** A source that starts with eighteen well-formed triples, each on its
    line, is loaded as these triples in their order, every round leaving
    the stream good; what follows them in the source is not looked at. *)
Theorem loadGraph_well_formed (ts : list triple) (rest : string) :
  List.length ts = VERTEX_COUNT -> Forall well_formed ts ->
  loadGraph (Some (render ts ++ rest)%string) = (true, map entry_of ts) /\
  triples_read (render ts ++ rest) = VERTEX_COUNT.
Proof. exact (loadGraph_well_formed_aux ts rest). Qed.

Lemma maze_triples_well_formed : Forall well_formed maze_triples.
Proof.
  unfold maze_triples.
  repeat (apply Forall_cons;
          [repeat split; try reflexivity; try discriminate;
           unfold INT_MAX; cbn; lia |]).
  apply Forall_nil.
Qed.

Lemma loadGraph_well_formed_witness :
  loadGraph (Some (render maze_triples ++ "end of file")%string)
  = (true, map entry_of maze_triples).
Proof.
  apply (loadGraph_well_formed maze_triples "end of file").
  - reflexivity.
  - exact maze_triples_well_formed.
Defined.

(** The number a string of digits writes, on three examples. *)
Example decimal_examples :
  decimal "0" = 0 /\ decimal "042" = 42 /\ decimal "2147483647" = INT_MAX.
Proof. repeat split. Qed.

Lemma load_loop_after n :
  forall s,
  skipn (S (snd (load_loop n s))) (fst (load_loop n s))
  = repeat unassigned (n - S (snd (load_loop n s))).
Proof.
  induction n as [| n IH]; intros s; cbn [load_loop]; [reflexivity |].
  destruct (extract_char s) as [s1 a].
  destruct (extract_char s1) as [s2 b].
  destruct (extract_int s2) as [s3 w].
  destruct (good s3) eqn:G3.
  - specialize (IH s3). destruct (load_loop n s3) as [entries k].
    cbn [fst snd] in *. exact IH.
  - rewrite (load_loop_failed n s3 G3). cbn [fst snd skipn].
    now replace (S n - 1)%nat with n by lia.
Qed.

(** After the first round that fails, nothing more is stored: every
    entry behind the one of that round is left unassigned. *)
Theorem loadGraph_after_failure (contents : string) :
  skipn (S (triples_read contents)) (snd (loadGraph (Some contents)))
  = repeat unassigned (VERTEX_COUNT - S (triples_read contents)).
Proof. unfold triples_read, loadGraph. cbn [snd]. apply load_loop_after. Qed.

End LoaderMore.

(** * Properties of the simulation loop *)

Section SimulationFacts.

Import Drives Needs Route Loader Source Simulation.

Lemma copyGraph_id baseGraph : copyGraph baseGraph = baseGraph.
Proof.
  unfold copyGraph. induction baseGraph as [| [a b w] g IH]; cbn;
    [reflexivity | now rewrite IH].
Qed.

Lemma in_bounds_updateState d travel :
  in_bounds d -> 0 <= travel -> in_bounds (updateState d travel).
Proof.
  unfold in_bounds, FUN_MAX, HEALTH_MAX, HUNGER_MAX, SLEEP_MAX.
  intros H Ht. cbn.
  repeat split; first [apply clamp0_nonneg | apply clamp0_le; lia].
Qed.

Lemma in_bounds_satisfyNeed d loc :
  in_bounds d -> in_bounds (satisfyNeed d loc).
Proof.
  unfold in_bounds, satisfyNeed, FUN_MAX, HEALTH_MAX, HUNGER_MAX, SLEEP_MAX.
  intros H.
  destruct (Ascii.eqb loc "F"); [cbn; lia |].
  destruct (Ascii.eqb loc "M"); [cbn; lia |].
  destruct (Ascii.eqb loc "N"); [cbn; lia |].
  destruct (Ascii.eqb loc "W"); [cbn; lia |].
  exact H.
Qed.

Lemma satisfied_value d c k :
  associated c = Some k -> value k (satisfyNeed d c) = maximum k.
Proof.
  unfold associated, satisfyNeed.
  destruct (Ascii.eqb c "F"); [intros [= <-]; reflexivity |].
  destruct (Ascii.eqb c "M"); [intros [= <-]; reflexivity |].
  destruct (Ascii.eqb c "N"); [intros [= <-]; reflexivity |].
  destruct (Ascii.eqb c "W"); [intros [= <-]; reflexivity |].
  discriminate.
Qed.

Lemma round_done fuel g d loc d' loc' :
  round fuel g d loc = Done (d', loc') ->
  loc' = identifyState d /\
  exists travel,
    path g loc loc' travel /\ travel < INFINITY_APPROX /\
    (travel = 0 <-> loc = loc') /\
    d' = satisfyNeed (updateState d travel) loc'.
Proof.
  unfold round. rewrite copyGraph_id.
  destruct (findRoute fuel g loc (identifyState d)) as [[x travel] | |] eqn:E;
    try discriminate.
  intros [= <- <-].
  destruct (search_done _ _ _ _ _ _ E) as (-> & Hp & Hlt & H0).
  split; [reflexivity |]. exists travel. auto.
Qed.

Lemma bounded_nonneg g :
  Ints.bounded_weights g -> Forall (fun e => 0 <= weight e) g.
Proof. intros H. eapply Forall_impl; [| exact H]. cbn. intros; lia. Qed.

(** With bounded weights and drives inside their bounds, a pass through
    the loop body that comes back has moved the rat to the node that
    [identifyState] answered, along a path of the graph whose weight is the
    distance travelled, between 0 and the sentinel; the drives are decayed
    by that distance, are inside their bounds again, and the drive of the
    node, if it has one, stands at its maximum. *)
Theorem round_arrives
    (fuel : nat) (baseGraph : list edgeWeight)
    (drives drives' : ratState) (location location' : ascii) :
  Ints.bounded_weights baseGraph -> in_bounds drives ->
  round fuel baseGraph drives location = Done (drives', location') ->
  location' = identifyState drives /\
  (exists travel,
     path baseGraph location location' travel /\
     0 <= travel < INFINITY_APPROX /\
     drives' = satisfyNeed (updateState drives travel) location') /\
  in_bounds drives' /\
  (forall k, associated location' = Some k -> value k drives' = maximum k).
Proof.
  intros Hb Hd H.
  destruct (round_done _ _ _ _ _ _ H) as (E & travel & Hp & Hlt & _ & Ed).
  pose proof (path_nonneg _ _ _ _ (bounded_nonneg _ Hb) Hp) as H0.
  split; [exact E |]. split; [exists travel; repeat split; auto |].
  split.
  - rewrite Ed. now apply in_bounds_satisfyNeed, in_bounds_updateState.
  - intros k Hk. rewrite Ed. now apply satisfied_value.
Qed.

Lemma round_arrives_witness :
  Ints.bounded_weights Examples.maze_graph /\
  in_bounds (mkRat 10 50 5 20) /\
  round 6 Examples.maze_graph (mkRat 10 50 5 20) "E"
  = Done (mkRat 7 47 30 17, "F") /\
  "F" = identifyState (mkRat 10 50 5 20).
Proof.
  assert (Hd : in_bounds (mkRat 10 50 5 20))
    by (unfold in_bounds, FUN_MAX, HEALTH_MAX, HUNGER_MAX, SLEEP_MAX; cbn; lia).
  assert (H : round 6 Examples.maze_graph (mkRat 10 50 5 20) "E"
              = Done (mkRat 7 47 30 17, "F")) by reflexivity.
  split; [exact maze_graph_bounded |]. split; [exact Hd |]. split; [exact H |].
  exact (proj1 (round_arrives 6 Examples.maze_graph (mkRat 10 50 5 20)
                  (mkRat 7 47 30 17) "E" "F" maze_graph_bounded Hd H)).
Defined.

(** In a graph with bounded weights the loop keeps the drives inside
    their bounds: if the simulation ends, the drives it ends with are
    inside the bounds when the drives it started with were. *)
Theorem simulate_keeps_bounds
    (rounds fuel : nat) (baseGraph : list edgeWeight) :
  Ints.bounded_weights baseGraph ->
  forall drives location drives',
  in_bounds drives ->
  simulate rounds fuel baseGraph drives location = Done drives' ->
  in_bounds drives'.
Proof.
  intros Hb. pose proof (bounded_nonneg _ Hb) as Hg.
  induction rounds as [| rounds IH]; intros d loc d' Hd; cbn [simulate];
    [discriminate |].
  destruct (round fuel baseGraph d loc) as [[d1 loc1] | |] eqn:E;
    try discriminate.
  destruct (round_done _ _ _ _ _ _ E) as (_ & travel & Hp & _ & _ & ->).
  assert (Hd1 : in_bounds (satisfyNeed (updateState d travel) loc1)).
  { apply in_bounds_satisfyNeed, in_bounds_updateState; [exact Hd |].
    exact (path_nonneg _ _ _ _ Hg Hp). }
  destruct (Ascii.eqb loc1 "E"); [intros [= <-]; exact Hd1 |].
  intros H. exact (IH _ _ _ Hd1 H).
Qed.

Lemma simulate_keeps_bounds_witness :
  in_bounds (mkRat 30 38 21 38).
Proof.
  apply (simulate_keeps_bounds 30 7 Examples.maze_graph maze_graph_bounded
           (mkRat 10 50 5 20) "E" (mkRat 30 38 21 38)).
  - unfold in_bounds, FUN_MAX, HEALTH_MAX, HUNGER_MAX, SLEEP_MAX; cbn; lia.
  - reflexivity.
Defined.

Lemma search_same fuel g X :
  is_node X -> findRoute fuel g X X = Done (X, 0).
Proof.
  intros HX. destruct (idx_spec X HX) as [EX Hle].
  unfold findRoute. rewrite EX.
  assert (E : get (upd (SearchInv.idx X) 0 initializeNodeWeight)
                  (SearchInv.idx X) = 0)
    by (apply get_upd_eq; cbn; lia).
  destruct fuel; cbn [findRoute_loop]; now rewrite Ascii.eqb_refl, E.
Qed.

Lemma percent_positive v m :
  0 < m -> 50 < Z.quot (100 * v) m -> 0 < v.
Proof.
  intros Hm H. destruct (Z.lt_ge_cases 0 v) as [Hv | Hv]; [exact Hv |].
  assert (Hq : Z.quot (100 * v) m <= Z.quot 0 m)
    by (apply Z.quot_le_mono; lia).
  rewrite Z.quot_0_l in Hq by lia. lia.
Qed.

Lemma updateState_zero d :
  (forall k, 0 <= value k d) -> updateState d 0 = d.
Proof.
  intros H. pose proof (H Fun) as Hf. pose proof (H Health) as Hh.
  pose proof (H Hunger) as Hu. pose proof (H Sleep) as Hs.
  destruct d as [f h u s]. cbn in *. unfold updateState. cbn.
  rewrite !clamp0_max, !Z.sub_0_r.
  f_equal; lia.
Qed.

Lemma content_round
    (rounds fuel : nat) (baseGraph : list edgeWeight) (drives : ratState) :
  identifyState drives = "E" ->
  simulate (S rounds) fuel baseGraph drives "E" = Done drives.
Proof.
  intros HE. cbn [simulate]. unfold round.
  rewrite HE, copyGraph_id, search_same
    by (unfold is_node, nodeAlphabet; cbn; auto).
  rewrite Ascii.eqb_refl. f_equal.
  rewrite updateState_zero.
  - reflexivity.
  - intros k. pose proof (proj1 (exit_iff drives) HE k) as H.
    destruct k; cbn in H; apply Z.lt_le_incl;
      eapply percent_positive; try exact H; reflexivity.
Qed.

(** A rat at the exit whose four percentages are above 50 leaves after
    one pass through the loop, with its drives as they were: the search is
    for the node it stands on, in any graph. *)
Theorem simulate_content
    (rounds fuel : nat) (baseGraph : list edgeWeight) (drives : ratState) :
  identifyState drives = "E" ->
  simulate (S rounds) fuel baseGraph drives "E" = Done drives.
Proof. exact (content_round rounds fuel baseGraph drives). Qed.

Lemma simulate_content_witness :
  identifyState (mkRat 20 40 20 30) = "E" /\
  simulate 1 0 [] (mkRat 20 40 20 30) "E" = Done (mkRat 20 40 20 30).
Proof.
  assert (H : identifyState (mkRat 20 40 20 30) = "E") by reflexivity.
  split; [exact H | exact (simulate_content 0 0 [] (mkRat 20 40 20 30) H)].
Defined.

(** ** The program *)

(** [main] returns the status 1 exactly when the file cannot be opened;
    no content of a file that opens leads to it. *)
Theorem main_status_one
    (file : option string) (r1 r2 r3 r4 : Z) (rounds fuel : nat) :
  main file r1 r2 r3 r4 rounds fuel = Done 1 <-> file = None.
Proof.
  unfold main. destruct file as [contents |]; cbn [loadGraph].
  - split; [| discriminate].
    destruct (read_graph _); [| discriminate].
    destruct (simulate _ _ _ _ _); discriminate.
  - split; reflexivity.
Qed.

Lemma read_graph_entries ts :
  read_graph (map entry_of ts) = Some (map edge_of ts).
Proof.
  induction ts as [| [[a b] ds] ts IH]; cbn; [reflexivity |].
  cbn in IH. now rewrite IH.
Qed.

(** With a file that starts with eighteen well-formed triples and four
    results of [rand()] that put every percentage above 50, [main] returns
    the status 0 after one pass through the loop, whatever the triples
    are. *)
Theorem main_content
    (ts : list triple) (rest : string) (r1 r2 r3 r4 : Z) (rounds fuel : nat) :
  List.length ts = VERTEX_COUNT -> Forall well_formed ts ->
  identifyState (initializeDrives r1 r2 r3 r4) = "E" ->
  main (Some (render ts ++ rest)%string) r1 r2 r3 r4 (S rounds) fuel = Done 0.
Proof.
  intros Hlen Hwf HE. unfold main.
  rewrite (proj1 (loadGraph_well_formed_aux ts rest Hlen Hwf)).
  rewrite read_graph_entries.
  now rewrite (content_round rounds fuel (map edge_of ts) _ HE).
Qed.

Lemma main_content_witness :
  main (Some (render maze_triples ++ "")%string) 20 40 20 30 1 0 = Done 0.
Proof.
  apply (main_content maze_triples "" 20 40 20 30 0 0).
  - reflexivity.
  - exact maze_triples_well_formed.
  - reflexivity.
Defined.

Lemma read_graph_unassigned n : read_graph (repeat unassigned (S n)) = None.
Proof. reflexivity. Qed.

Lemma read_graph_app l1 l2 :
  read_graph l2 = None -> read_graph (l1 ++ l2) = None.
Proof.
  intros H. induction l1 as [| e l1 IH]; cbn; [exact H |].
  rewrite IH. now destruct (read_entry e).
Qed.

(** A source with fewer than seventeen well-formed triples at its front
    leaves an entry of [baseGraph] unassigned, and [main] goes on to copy
    it: the program has no defined result. *)
Theorem main_short_source
    (contents : string) (r1 r2 r3 r4 : Z) (rounds fuel : nat) :
  (triples_read contents < 17)%nat ->
  main (Some contents) r1 r2 r3 r4 rounds fuel = Undefined.
Proof.
  intros Hk. unfold main.
  pose proof (load_loop_after VERTEX_COUNT {| buffer := contents; good := true |})
    as Hafter.
  fold (triples_read contents) in Hafter.
  cbn [loadGraph].
  set (entries := fst (load_loop VERTEX_COUNT
                         {| buffer := contents; good := true |})) in *.
  rewrite <- (firstn_skipn (S (triples_read contents)) entries), Hafter.
  replace (VERTEX_COUNT - S (triples_read contents))%nat
    with (S (16 - triples_read contents))
    by (unfold VERTEX_COUNT; lia).
  now rewrite read_graph_app by apply read_graph_unassigned.
Qed.

Lemma main_short_source_witness :
  (triples_read "E N 2" < 17)%nat /\
  main (Some "E N 2"%string) 20 40 20 30 1 7 = Undefined.
Proof.
  assert (H : (triples_read "E N 2" < 17)%nat) by (vm_compute; lia).
  split; [exact H |].
  exact (main_short_source "E N 2" 20 40 20 30 1 7 H).
Defined.

End SimulationFacts.
